(** * Framework-i: a virtual-node renderer and a Flux store

  A shallow embedding of [src/frame.js] (with the store variant that the
  README of the repository documents) and the properties of its
  specification.

  - [Store]: [createStore], [getState], [dispatch], [subscribe] and the
    closure [subscribe] returns, as explicit state passing over the
    variables the closures capture.
  - [Js]: the JavaScript values the renderer handles, objects and arrays
    living in a heap of cells so that copies and aliases are what they
    are in the program.
  - [Dom]: the host document, reduced to the five operations the
    renderer calls on it, on a host that accepts every request.
  - [Frame]: [createElement], and [renderElement] and [render] on that
    host.
  - [Tree]: the VNode trees of the specification and what it means for
    a document node to be isomorphic to one.
  - [Reentrant]: [dispatch] with listeners that throw, dispatch or
    subscribe while they are notified.
  - [General]: [renderElement] and [render] on a host that may refuse
    an element type or an assignment, and on objects that bring their
    own [forEach].
  - [Examples]: the scenarios of the specification.

  The properties follow the definitions: the store first, then the
  virtual nodes, then the examples. *)

From stdpp Require Import base list strings pretty.

Open Scope string_scope.
Open Scope list_scope.

(** ** The store *)

Module Store.

Section store.

(** The store never looks inside a state or an action's payload, and a
    listener is only ever compared ([!==]) and called: the three are
    left abstract. [State] is the type of every JavaScript value a
    reducer may take or return, [undefined] among them. *)
Context {State Payload Listener : Type} `{EqDecision Listener}.
Variable undefined : State.

(** [{ type, ...payload }] *)
Record Action := mkAction {
  type : string;
  payload : list (string * Payload)
}.

(** [{ type: '__INIT__' }] *)
Definition INIT : Action := {| type := "__INIT__"; payload := [] |}.

(** A reducer is a function of the previous state and the action: it
    returns, and it has no effect on the store or on anything else. *)
Definition Reducer : Type := State → Action → State.

(** What the three closures of one [createStore] call share: the
    [reducer] argument, the [state] variable and the [listeners] array. *)
Record Store := mkStore {
  reducer : Reducer;
  state : State;
  listeners : list Listener
}.

(** One call of a listener: the callee, the arguments it was called
    with, and the value of the [state] variable during the call (what
    [getState()] answers the listener). *)
Record Event := Call {
  callee : Listener;
  args : list (State + Action);
  visible : State
}.

(** The closure [subscribe] returns; it captures [listener]. *)
Inductive Unsubscribe := Unsub (listener : Listener).

Definition createStore (reducer : Reducer) : Store :=
  {| reducer := reducer;
     state := reducer undefined INIT;
     listeners := [] |}.

Definition getState (st : Store) : State := state st.

(** [state = reducer(state, action); listeners.forEach(listener => listener())]
    when every listener returns and has left the store alone: the calls
    are then all there is to the loop. [Reentrant.dispatch] is the same
    code with listeners that throw or call back into the store. *)
Definition dispatch (st : Store) (action : Action) : Store * list Event :=
  let st := {| reducer := reducer st;
               state := reducer st (state st) action;
               listeners := listeners st |} in
  (st, (λ listener, Call listener [] (state st)) <$> listeners st).

(** [listeners.push(listener); return () => ...] *)
Definition subscribe (st : Store) (listener : Listener) : Store * Unsubscribe :=
  ({| reducer := reducer st;
      state := state st;
      listeners := listeners st ++ [listener] |},
   Unsub listener).

(** [src/frame.js]: [() => listeners.filter(l => l !== listener)]. The
    filtered array is a new one; it is the closure's result, and the
    [listeners] array of the store is not assigned. *)
Definition unsubscribe (st : Store) (u : Unsubscribe) : Store * list Listener :=
  let 'Unsub listener := u in
  (st, filter (λ l, l ≠ listener) (listeners st)).

(** [Array.prototype.indexOf]: the first index holding [x], or [-1]. *)
Fixpoint indexOf (xs : list Listener) (x : Listener) : Z :=
  match xs with
  | [] => -1
  | y :: ys =>
      if decide (y = x) then 0
      else let i := indexOf ys x in
           if (-1 <? i)%Z then (i + 1)%Z else -1
  end%Z.

(** [Array.prototype.splice(start, deleteCount)] for a [start] within
    the array: the array without the removed run. *)
Definition splice (xs : list Listener) (start deleteCount : nat) : list Listener :=
  take start xs ++ drop (start + deleteCount) xs.

(** The README's closure:
    [const index = listeners.indexOf(listener);
     if (index > -1) listeners.splice(index, 1);] *)
Definition unsubscribe_readme (st : Store) (u : Unsubscribe) : Store :=
  let 'Unsub listener := u in
  let index := indexOf (listeners st) listener in
  if (-1 <? index)%Z
  then {| reducer := reducer st;
          state := state st;
          listeners := splice (listeners st) (Z.to_nat index) 1 |}
  else st.

(** The calls a sequence of events makes to one listener. *)
Definition calls_to (l : Listener) (events : list Event) : nat :=
  length (filter (λ e, callee e = l) events).

(** How many entries of the array are [l]. *)
Definition occurrences (l : Listener) (ls : list Listener) : nat :=
  length (filter (λ l', l' = l) ls).

(** A client's use of a store, one operation after the other. *)
Inductive Op :=
| OpGetState
| OpDispatch (action : Action)
| OpSubscribe (listener : Listener)
| OpUnsubscribe (u : Unsubscribe).

Definition step (st : Store) (op : Op) : Store * list Event :=
  match op with
  | OpGetState => (st, [])
  | OpDispatch action => dispatch st action
  | OpSubscribe listener => ((subscribe st listener).1, [])
  | OpUnsubscribe u => ((unsubscribe st u).1, [])
  end.

Fixpoint run (st : Store) (ops : list Op) : Store * list Event :=
  match ops with
  | [] => (st, [])
  | op :: ops =>
      let '(st, events) := step st op in
      let '(st, events') := run st ops in
      (st, events ++ events')
  end.

(** The actions a sequence of operations dispatches, in order. *)
Definition dispatched (ops : list Op) : list Action :=
  omap (λ op, match op with OpDispatch a => Some a | _ => None end) ops.

(** The listeners a sequence of operations subscribes, in order. *)
Definition subscribed (ops : list Op) : list Listener :=
  omap (λ op, match op with OpSubscribe l => Some l | _ => None end) ops.


End store.

End Store.

(** ** JavaScript values *)

Module Js.

Abbreviation addr := nat.

(** Primitives are values; objects and arrays are references into the
    heap, so that two names of one object are one object. Numbers are
    the integral ones. A function is known by its identity alone. A
    string is the sequence of its UTF-16 code units, each of them below
    256 and written as one character. *)
Inductive Val :=
| VUndefined
| VNull
| VBool (b : bool)
| VNum (n : Z)
| VStr (s : string)
| VFun (f : nat)
| VRef (a : addr).

(** A plain object is its own enumerable string-keyed fields, each key
    once, in the order the object enumerates them (for the keys that are
    not array indices, the order of their creation); an array is its
    elements. *)
Inductive Cell :=
| CObj (fields : list (string * Val))
| CArr (elems : list Val).

Abbreviation Heap := (list Cell).

(** An object or array literal evaluates to a reference to a new cell. *)
Definition alloc (c : Cell) (h : Heap) : Val * Heap :=
  (VRef (length h), h ++ [c]).

(** A value of a heap: a primitive, or a reference to one of its cells. *)
Definition valid (h : Heap) (v : Val) : Prop :=
  match v with
  | VRef a => (a < length h)%nat
  | _ => True
  end.

(** A value that is no reference to the cell at [n] or to a later one. *)
Definition below (n : nat) (v : Val) : Prop :=
  match v with
  | VRef a => (a < n)%nat
  | _ => True
  end.

(** The values a cell holds. *)
Definition cell_values (c : Cell) : list Val :=
  match c with
  | CObj fields => fields.*2
  | CArr elems => elems
  end.

(** A heap in which every cell refers to earlier cells only, as in a
    heap that literals and calls have built from values that existed
    before them and nothing has assigned into since. *)
Definition backward (h : Heap) : Prop :=
  ∀ (a : addr) c, h !! a = Some c → Forall (below a) (cell_values c).

(** [o[key]] on the fields of an object: [undefined] when absent. *)
Fixpoint obj_get (fields : list (string * Val)) (key : string) : Val :=
  match fields with
  | [] => VUndefined
  | (k, v) :: fields => if String.eqb k key then v else obj_get fields key
  end.

(** [o[key] = value] on the fields of an object: an existing key keeps
    its place, a new one goes last (where a key that is not an array
    index, such as [children], is enumerated). *)
Fixpoint obj_set (fields : list (string * Val)) (key : string) (value : Val)
  : list (string * Val) :=
  match fields with
  | [] => [(key, value)]
  | (k, v) :: fields =>
      if String.eqb k key then (k, value) :: fields
      else (k, v) :: obj_set fields key value
  end.

Definition keys (fields : list (string * Val)) : list string := fields.*1.

(** ToBoolean *)
Definition truthy (v : Val) : bool :=
  match v with
  | VUndefined | VNull => false
  | VBool b => b
  | VNum n => negb (n =? 0)%Z
  | VStr s => negb (String.eqb s "")
  | VFun _ | VRef _ => true
  end.

(** The entries of an array-like: its indices, as keys, with its elements. *)
Definition indexed (elems : list Val) : list (string * Val) :=
  imap (λ i v, (pretty i, v)) elems.

(** The one-character strings of a string, one per code unit. *)
Fixpoint chars (s : string) : list Val :=
  match s with
  | EmptyString => []
  | String c s => VStr (String c EmptyString) :: chars s
  end.

(** The own enumerable string-keyed properties of a value, as
    [Object.entries(v)] lists them for a [v] that is neither [null] nor
    [undefined], and as [{...v}] copies them for every [v]. A reference
    that names no cell has none. *)
Definition own_entries (h : Heap) (v : Val) : list (string * Val) :=
  match v with
  | VRef a =>
      match h !! a with
      | Some (CObj fields) => fields
      | Some (CArr elems) => indexed elems
      | None => []
      end
  | VStr s => indexed (chars s)
  | _ => []
  end.

Inductive Error := TypeError.

(** A computation returns, throws, or is cut short by the fuel that
    bounds the depth of its recursion. *)
Inductive Result (A : Type) :=
| Ok (a : A)
| Throw (e : Error)
| OutOfFuel.
Arguments Ok {A} a.
Arguments Throw {A} e.
Arguments OutOfFuel {A}.

#[export] Instance Result_ret : MRet Result := λ A a, Ok a.
#[export] Instance Result_bind : MBind Result := λ A B f m,
  match m with
  | Ok a => f a
  | Throw e => Throw e
  | OutOfFuel => OutOfFuel
  end.

(** [xs.forEach(x => body)], the body acting on [acc]: it stops at the
    first element whose body does not return. *)
Fixpoint forEach {A B : Type} (xs : list A) (body : B → A → Result B) (acc : B)
  : Result B :=
  match xs with
  | [] => Ok acc
  | x :: xs => acc ← body acc x; forEach xs body acc
  end.

(** [v.type] and [v.props], the two reads of the renderer: a [TypeError]
    on [undefined] and [null], the field of an object, and [undefined]
    on every other value (no array, function or primitive has a property
    of either name). *)
Definition member (h : Heap) (v : Val) (key : string) : Result Val :=
  match v with
  | VUndefined | VNull => Throw TypeError
  | VRef a =>
      match h !! a with
      | Some (CObj fields) => Ok (obj_get fields key)
      | _ => Ok VUndefined
      end
  | _ => Ok VUndefined
  end.

(** The elements [value.forEach] visits: those of an array. On every
    other value the call is a [TypeError], the heap being one in which
    no object has a function under [forEach] ([General.no_forEach]);
    [General.forEach_receiver] is the call in any heap. *)
Definition forEach_receiver (h : Heap) (value : Val) : Result (list Val) :=
  match value with
  | VRef a =>
      match h !! a with
      | Some (CArr elems) => Ok elems
      | _ => Throw TypeError
      end
  | _ => Throw TypeError
  end.

End Js.

(** ** The host document *)

Module Dom.
Import Js.

(** Modelled from the spec: the host document is not code of this
    repository. Section 6 of the specification reduces it to five
    operations (create-text-node, create-element-node, set-property,
    append-child and a container-clearing primitive), and the model is
    the free one: a node is what these operations have made of it. An
    element keeps the value [document.createElement] was called with as
    its tag; the host's own conversion and validation of tag names and
    the meaning it gives to particular properties are outside. *)
Record Element (N : Type) := mkElement {
  tag : Val;
  properties : list (string * Val);
  childNodes : list N
}.
Arguments mkElement {N} tag properties childNodes.
Arguments tag {N} e.
Arguments properties {N} e.
Arguments childNodes {N} e.

#[warnings="-register-all"]
Inductive Node :=
| TextNode (data : string)
| ElementNode (el : Element Node).

(** [document.createTextNode(data)] *)
Definition createTextNode (data : string) : Node := TextNode data.

(** [document.createElement(tag)], on a host that makes an element of
    every tag; [General.Host] has the hosts that refuse some. *)
Definition document_createElement (tag : Val) : Element Node :=
  {| tag := tag; properties := []; childNodes := [] |}.

(** [element[key] = value], on a host that takes every key as a plain
    property; [General.Host] has the hosts that refuse an assignment or
    do more with it. *)
Definition set_property (element : Element Node) (key : string) (value : Val)
  : Element Node :=
  {| tag := tag element;
     properties := obj_set (properties element) key value;
     childNodes := childNodes element |}.

(** [parent.appendChild(child)], for a [child] that has no parent yet *)
Definition appendChild (parent : Element Node) (child : Node) : Element Node :=
  {| tag := tag parent;
     properties := properties parent;
     childNodes := childNodes parent ++ [child] |}.

(** [container.innerHTML = ''] *)
Definition clear_innerHTML (container : Element Node) : Element Node :=
  {| tag := tag container;
     properties := properties container;
     childNodes := [] |}.

End Dom.

(** ** Virtual nodes and their rendering *)

Module Frame.
Import Js Dom.

(** [(type, props = {}, ...children) => ({ type, props: { ...props, children } })]

    The default [{}] stands in for a [props] that is [undefined]; the
    rest parameter is a new array of the arguments after the second;
    the two object literals are new objects. *)
Definition createElement (type props : Val) (children : list Val) (h : Heap)
  : Val * Heap :=
  let '(props, h) := match props with
                     | VUndefined => alloc (CObj []) h
                     | _ => (props, h)
                     end in
  let '(children, h) := alloc (CArr children) h in
  let '(props, h) :=
    alloc (CObj (obj_set (own_entries h props) "children" children)) h in
  alloc (CObj [("type", type); ("props", props)]) h.

(** [child => element.appendChild(renderElement(child))], the callback
    of the inner [forEach]; [element] is the variable it captures and
    [renderElement] the recursive call. *)
Definition append_rendered (renderElement : Val → Result Node)
    (element : Element Node) (child : Val) : Result (Element Node) :=
  node ← renderElement child;
  Ok (appendChild element node).

(** [([key, value]) => { if (key === 'children') { value.forEach(...) }
    else { element[key] = value } }], the callback of the outer
    [forEach]. *)
Definition assign_entry (renderElement : Val → Result Node) (h : Heap)
    (element : Element Node) (entry : string * Val) : Result (Element Node) :=
  let '(key, value) := entry in
  if String.eqb key "children" then
    children ← forEach_receiver h value;
    forEach children (append_rendered renderElement) element
  else Ok (set_property element key value).

(** [renderElement(vNode)], on the host of [Dom]. The recursion follows
    references, which a heap may tie into a cycle: [fuel] bounds its
    depth. *)
Fixpoint renderElement (fuel : nat) (h : Heap) (vNode : Val) : Result Node :=
  match fuel with
  | 0 => OutOfFuel
  | S fuel =>
      match vNode with
      | VStr s => Ok (createTextNode s)
      | _ =>
          type ← member h vNode "type";
          let element := document_createElement type in
          props ← member h vNode "props";
          let entries := if truthy props then own_entries h props else [] in
          element ← forEach entries (assign_entry (renderElement fuel h) h) element;
          Ok (ElementNode element)
      end
  end.

(** [renderElement(vNode)] returns [node]: it does with every fuel
    from some fuel on. *)
Definition renderElement_returns (h : Heap) (vNode : Val) (node : Node) : Prop :=
  ∃ fuel0 : nat, ∀ fuel : nat, (fuel0 ≤ fuel)%nat → renderElement fuel h vNode = Ok node.

(** [render(vNode, container)]: the container as the call leaves it,
    and how the call ends. *)
Definition render (fuel : nat) (h : Heap) (vNode : Val) (container : Element Node)
  : Element Node * Result () :=
  let container := clear_innerHTML container in
  match renderElement fuel h vNode with
  | Ok node => (appendChild container node, Ok ())
  | Throw e => (container, Throw e)
  | OutOfFuel => (container, OutOfFuel)
  end.

End Frame.

(** ** The data model of the specification *)

Module Tree.
Import Js Dom.

(** The attributes of an element node: the entries of its mapping
    other than the reserved [children], in their order. *)
Definition attributes (entries : list (string * Val)) : list (string * Val) :=
  filter (λ entry, entry.1 ≠ "children") entries.

(** A VNode tree as it lies in a heap: a string, or an object
    [{ type, props }] whose [type] is a string and whose [props] is an
    object (each key once, as in every object) that holds under
    [children] an array of VNode trees. *)
#[warnings="-register-all"]
Inductive VNodeTree (h : Heap) : Val → Prop :=
| VNode_text s : VNodeTree h (VStr s)
| VNode_element a fields name p entries c kids :
    h !! a = Some (CObj fields) →
    obj_get fields "type" = VStr name →
    obj_get fields "props" = VRef p →
    h !! p = Some (CObj entries) →
    NoDup (keys entries) →
    obj_get entries "children" = VRef c →
    h !! c = Some (CArr kids) →
    Forall (VNodeTree h) kids →
    VNodeTree h (VRef a).

(** A document node is isomorphic to a VNode when it is a text node of
    the same string, or an element of the same tag with the same
    attributes and, in the same order, children isomorphic to the
    VNode's children. *)
#[warnings="-register-all"]
Inductive Isomorphic (h : Heap) : Val → Node → Prop :=
| Iso_text s : Isomorphic h (VStr s) (TextNode s)
| Iso_element a fields p entries c kids el :
    h !! a = Some (CObj fields) →
    obj_get fields "props" = VRef p →
    h !! p = Some (CObj entries) →
    obj_get entries "children" = VRef c →
    h !! c = Some (CArr kids) →
    tag el = obj_get fields "type" →
    properties el = attributes entries →
    Forall2 (Isomorphic h) kids (childNodes el) →
    Isomorphic h (VRef a) (ElementNode el).

End Tree.

(** ** Listeners that act *)

Module Reentrant.
Import Store.

Section reentrant.

Context {State Payload Listener : Type} `{EqDecision Listener}.

Abbreviation Store := (@Store State Payload Listener).
Abbreviation Action := (@Action Payload).
Abbreviation Event := (@Event State Payload Listener).
Abbreviation Op := (@Op Payload Listener).

(** What a listener does with the store when it is called, up to its
    return or its exception: it may read the state and go on according
    to it, dispatch, subscribe, invoke an unsubscribe closure. An
    exception that a nested [dispatch] throws is the listener's own (it
    has no [try]). *)
Inductive Script :=
| Return
| Raise
| GetState (k : State → Script)
| Dispatch (action : Action) (k : Script)
| Subscribe (listener : Listener) (k : Script)
| Invoke (u : @Unsubscribe Listener) (k : Script).

(** How a call ends: it returns, it throws, or the fuel that bounds the
    nesting of dispatches is used up. *)
Inductive Completion := Completed | Raised | Exhausted.

(** One listener's call, given what a nested [dispatch] does. *)
Fixpoint interpret (dispatch : Store → Action → Store * list Event * Completion)
    (script : Script) (st : Store) : Store * list Event * Completion :=
  match script with
  | Return => (st, [], Completed)
  | Raise => (st, [], Raised)
  | GetState k => interpret dispatch (k (getState st)) st
  | Dispatch action k =>
      let '(st, events, c) := dispatch st action in
      match c with
      | Completed =>
          let '(st, events', c) := interpret dispatch k st in
          (st, events ++ events', c)
      | _ => (st, events, c)
      end
  | Subscribe listener k => interpret dispatch k (subscribe st listener).1
  | Invoke u k => interpret dispatch k (unsubscribe st u).1
  end.

(** [listeners.forEach(listener => listener())] over the entries the
    array has when the loop starts: [forEach] visits no entry pushed
    after that, and nothing in [src/frame.js] removes or moves one. An
    exception ends the loop. *)
Fixpoint notify (call : Listener → Store → Store * list Event * Completion)
    (ls : list Listener) (st : Store) : Store * list Event * Completion :=
  match ls with
  | [] => (st, [], Completed)
  | listener :: ls =>
      let entered := Call listener [] (state st) in
      let '(st, events, c) := call listener st in
      match c with
      | Completed =>
          let '(st, events', c) := notify call ls st in
          (st, entered :: events ++ events', c)
      | _ => (st, entered :: events, c)
      end
  end.

(** [dispatch(action)] when the listeners run [code]. *)
Fixpoint dispatch (fuel : nat) (code : Listener → Script) (st : Store)
    (action : Action) : Store * list Event * Completion :=
  match fuel with
  | 0 => (st, [], Exhausted)
  | S fuel =>
      let st := {| reducer := reducer st;
                   state := reducer st (state st) action;
                   listeners := listeners st |} in
      notify (λ listener, interpret (dispatch fuel code) (code listener))
        (listeners st) st
  end.

(** A client's operations, one after the other, up to the first that
    does not return. *)
Fixpoint run (fuel : nat) (code : Listener → Script) (st : Store)
    (ops : list Op) : Store * list Event * Completion :=
  match ops with
  | [] => (st, [], Completed)
  | op :: ops =>
      let '(st, events, c) :=
        match op with
        | OpDispatch action => dispatch fuel code st action
        | _ => (step st op, Completed)
        end in
      match c with
      | Completed =>
          let '(st, events', c) := run fuel code st ops in
          (st, events ++ events', c)
      | _ => (st, events, c)
      end
  end.

(** A listener that returns and has left the store alone: it has at
    most read the state and invoked closures of [src/frame.js]. *)
Inductive Quiet : Script → Prop :=
| Quiet_return : Quiet Return
| Quiet_getState k : (∀ s, Quiet (k s)) → Quiet (GetState k)
| Quiet_invoke u k : Quiet k → Quiet (Invoke u k).


End reentrant.

End Reentrant.

(** ** Rendering on a host that may refuse *)

Module General.
Import Js Dom Tree.

(** What [renderElement] may throw: a [TypeError] of its own, or what
    the host throws. *)
Inductive Thrown := JsTypeError | HostError.

(** A computation returns, throws, hands control to a function the
    model does not follow, or is cut short by the fuel. *)
Inductive Outcome (A : Type) :=
| Returns (a : A)
| Throws (e : Thrown)
| Calls (f : nat)
| Unfinished.
Arguments Returns {A} a.
Arguments Throws {A} e.
Arguments Calls {A} f.
Arguments Unfinished {A}.

#[export] Instance Outcome_ret : MRet Outcome := λ A a, Returns a.
#[export] Instance Outcome_bind : MBind Outcome := λ A B f m,
  match m with
  | Returns a => f a
  | Throws e => Throws e
  | Calls g => Calls g
  | Unfinished => Unfinished
  end.

(** The outcome of a computation of [Js]. *)
Definition lift {A : Type} (r : Result A) : Outcome A :=
  match r with
  | Ok a => Returns a
  | Throw _ => Throws JsTypeError
  | OutOfFuel => Unfinished
  end.

(** The host's answer to a request: the element as the host made it or
    left it, or an exception. *)
Inductive Reply :=
| Accept (element : Element Node)
| Reject (e : Thrown).

Definition reply (r : Reply) : Outcome (Element Node) :=
  match r with
  | Accept element => Returns element
  | Reject e => Throws e
  end.

(** Modelled from the spec: the host document is not code of this
    repository, and sections 4.2 and 7 of the specification let it
    refuse an element type or an attribute assignment. A host is what it
    answers to [document.createElement(tag)] and to
    [element[key] = value]; what an assignment does to the element is
    the host's business too. *)
Record Host := mkHost {
  create : Val → Reply;
  assign : Element Node → string → Val → Reply
}.

(** The host of [Dom]: it accepts everything and keeps every property
    as it was given. *)
Definition plain : Host :=
  {| create tag := Accept (document_createElement tag);
     assign element key value := Accept (set_property element key value) |}.

(** [xs.forEach(x => body)] *)
Fixpoint forEach {A B : Type} (xs : list A) (body : B → A → Outcome B) (acc : B)
  : Outcome B :=
  match xs with
  | [] => Returns acc
  | x :: xs => acc ← body acc x; forEach xs body acc
  end.

(** The elements [value.forEach] visits when [value] is an array. An
    object that has a function under [forEach] has it called, and there
    the model stops; on every other value the call is a [TypeError]. *)
Definition forEach_receiver (h : Heap) (value : Val) : Outcome (list Val) :=
  match value with
  | VRef a =>
      match h !! a with
      | Some (CArr elems) => Returns elems
      | Some (CObj fields) =>
          match obj_get fields "forEach" with
          | VFun f => Calls f
          | _ => Throws JsTypeError
          end
      | None => Throws JsTypeError
      end
  | _ => Throws JsTypeError
  end.

(** [child => element.appendChild(renderElement(child))] *)
Definition append_rendered (renderElement : Val → Outcome Node)
    (element : Element Node) (child : Val) : Outcome (Element Node) :=
  node ← renderElement child;
  Returns (appendChild element node).

(** [([key, value]) => { if (key === 'children') { value.forEach(...) }
    else { element[key] = value } }] *)
Definition assign_entry (host : Host) (renderElement : Val → Outcome Node)
    (h : Heap) (element : Element Node) (entry : string * Val)
  : Outcome (Element Node) :=
  let '(key, value) := entry in
  if String.eqb key "children" then
    children ← forEach_receiver h value;
    forEach children (append_rendered renderElement) element
  else reply (assign host element key value).

(** [renderElement(vNode)] on a host. *)
Fixpoint renderElement (host : Host) (fuel : nat) (h : Heap) (vNode : Val)
  : Outcome Node :=
  match fuel with
  | 0 => Unfinished
  | S fuel =>
      match vNode with
      | VStr s => Returns (createTextNode s)
      | _ =>
          type ← lift (member h vNode "type");
          element ← reply (create host type);
          props ← lift (member h vNode "props");
          let entries := if truthy props then own_entries h props else [] in
          element ← forEach entries
                      (assign_entry host (renderElement host fuel h) h) element;
          Returns (ElementNode element)
      end
  end.

(** [render(vNode, container)] on a host. *)
Definition render (host : Host) (fuel : nat) (h : Heap) (vNode : Val)
    (container : Element Node) : Element Node * Outcome () :=
  let container := clear_innerHTML container in
  match renderElement host fuel h vNode with
  | Returns node => (appendChild container node, Returns ())
  | Throws e => (container, Throws e)
  | Calls f => (container, Calls f)
  | Unfinished => (container, Unfinished)
  end.

(** The host takes [key] as a plain property: the assignment is
    accepted and does nothing but set it. *)
Definition plain_key (host : Host) (key : string) : Prop :=
  ∀ element value,
    assign host element key value = Accept (set_property element key value).

(** The host makes an element of [tag]: an empty one of that tag. *)
Definition plain_tag (host : Host) (tag : Val) : Prop :=
  create host tag = Accept (document_createElement tag).

(** The host accepts every assignment to [key], whatever it does with
    it. *)
Definition takes (host : Host) (key : string) : Prop :=
  ∀ element value, ∃ element', assign host element key value = Accept element'.

(** A heap in which no object has a function under [forEach]. *)
Definition no_forEach (h : Heap) : Prop :=
  ∀ (a : addr) fields f,
    h !! a = Some (CObj fields) → obj_get fields "forEach" ≠ VFun f.

(** A VNode tree that the host accepts: it makes an element of every
    tag of the tree and takes every attribute of the tree as a plain
    property. *)
#[warnings="-register-all"]
Inductive Accepted (host : Host) (h : Heap) : Val → Prop :=
| Accepted_text s : Accepted host h (VStr s)
| Accepted_element a fields name p entries c kids :
    h !! a = Some (CObj fields) →
    obj_get fields "type" = VStr name →
    obj_get fields "props" = VRef p →
    h !! p = Some (CObj entries) →
    NoDup (keys entries) →
    obj_get entries "children" = VRef c →
    h !! c = Some (CArr kids) →
    plain_tag host (VStr name) →
    Forall (plain_key host) (keys (attributes entries)) →
    Forall (Accepted host h) kids →
    Accepted host h (VRef a).

End General.

(** ** Examples *)

Module Examples.
Import Js Dom Frame.

(** [createElement('div', {id: 'a'}, 'hello',
      createElement('span', {}, 'world'))], evaluated in an empty heap:
    the arguments left to right, then the call. *)
Definition scenario : Val * Heap :=
  let '(attrs, h) := alloc (CObj [("id", VStr "a")]) [] in
  let '(attrs', h) := alloc (CObj []) h in
  let '(span, h) := createElement (VStr "span") attrs' [VStr "world"] h in
  createElement (VStr "div") attrs [VStr "hello"; span] h.

(** A heap with an attributes object [{ children: 'mine', id: 'a' }]. *)
Definition reserved : Heap := [CObj [("children", VStr "mine"); ("id", VStr "a")]].


(** [(s = 0, a) => a.type === 'INC' ? s + 1 : s], on numbers and
    [undefined] ([None]). *)
Definition counter (s : option Z) (a : @Store.Action Empty_set) : option Z :=
  let s := default 0%Z s in
  if String.eqb (Store.type a) "INC" then Some (s + 1)%Z else Some s.

Definition INC : @Store.Action Empty_set :=
  {| Store.type := "INC"; Store.payload := [] |}.

(** The scenario before its last call: the attributes objects and the
    [span]. *)
Definition scenario_span : Val * Heap :=
  let '(attrs, h) := alloc (CObj [("id", VStr "a")]) [] in
  let '(attrs', h) := alloc (CObj []) h in
  createElement (VStr "span") attrs' [VStr "world"] h.

(** [{ type: 'p', props: { id: 'a', children: 'text' } }]: the
    children are a string, not an array. *)
Definition text_children : Heap :=
  [CObj [("type", VStr "p"); ("props", VRef 1)];
   CObj [("id", VStr "a"); ("children", VStr "text")]].


(** An array [['li']]. *)
Definition array_value : Heap := [CArr [VStr "li"]].


(** A host that makes no element of the tag ['<'] (a browser throws an
    [InvalidCharacterError] there), and that puts a text assigned to
    [innerHTML] in the place of the children the element had. *)
Definition strict : General.Host :=
  {| General.create tag :=
       match tag with
       | VStr name =>
           if String.eqb name "<" then General.Reject General.HostError
           else General.Accept (document_createElement tag)
       | _ => General.Accept (document_createElement tag)
       end;
     General.assign element key value :=
       if String.eqb key "innerHTML" then
         match value with
         | VStr s =>
             General.Accept
               {| tag := tag element;
                  properties := obj_set (properties element) key value;
                  childNodes := [TextNode s] |}
         | _ => General.Accept (set_property element key value)
         end
       else General.Accept (set_property element key value) |}.



(** [{ type: 'p', props: { children: { forEach: f } } }] *)
Definition forEach_carrier : Heap :=
  [CObj [("type", VStr "p"); ("props", VRef 1)];
   CObj [("children", VRef 2)];
   CObj [("forEach", VFun 0)]].



(** Proves that the cells of a concrete heap refer to earlier cells. *)
Ltac backward_heap :=
  let a := fresh "a" in
  let c := fresh "c" in
  let H := fresh "H" in
  intros a c H;
  repeat (destruct a as [|a];
          [injection H as <-; repeat constructor; simpl; lia|]);
  done.

(** Proves that a value of a concrete heap is a VNode tree. *)
Ltac vnode_tree :=
  repeat first
    [ apply Tree.VNode_text
    | apply Forall_nil_2
    | apply Forall_cons_2
    | eapply Tree.VNode_element;
      [reflexivity | reflexivity | reflexivity | reflexivity
      | apply (bool_decide_unpack _); vm_compute; exact I
      | reflexivity | reflexivity | ] ].


End Examples.

(** * Properties of the store *)

Section store_properties.
Import Store.

Context {State Payload Listener : Type} `{EqDecision Listener}.
Variable undefined : State.

Abbreviation Store := (@Store State Payload Listener).
Abbreviation Action := (@Action Payload).
Abbreviation Reducer := (@Reducer State Payload).
Abbreviation Event := (@Event State Payload Listener).
Abbreviation Op := (@Op Payload Listener).

Implicit Types (st : Store) (action : Action) (l : Listener)
  (ls : list Listener) (r : Reducer) (op : Op) (ops : list Op).

Lemma occurrences_nil l : occurrences l [] = 0.
Proof. reflexivity. Qed.

Lemma occurrences_cons l l' ls :
  occurrences l (l' :: ls) =
    (if decide (l' = l) then 1 else 0) + occurrences l ls.
Proof.
  unfold occurrences. rewrite filter_cons.
  destruct (decide (l' = l)); reflexivity.
Qed.

Lemma occurrences_app l ls ls' :
  occurrences l (ls ++ ls') = occurrences l ls + occurrences l ls'.
Proof. unfold occurrences. by rewrite filter_app, length_app. Qed.


Lemma occurrences_absent l ls : l ∉ ls → occurrences l ls = 0.
Proof.
  induction ls as [|l' ls IH]; [done|].
  rewrite not_elem_of_cons. intros [Hne Hnotin].
  rewrite occurrences_cons, IH by done. by rewrite decide_False.
Qed.

(** A notification pass calls a listener once per entry it has. *)
Lemma calls_to_notify l (s : State) ls :
  calls_to l ((λ listener, Call listener [] s) <$> ls : list Event)
  = occurrences l ls.
Proof.
  induction ls as [|l' ls IH]; [done|].
  rewrite fmap_cons, occurrences_cons. unfold calls_to in *.
  rewrite filter_cons. simpl.
  destruct (decide (l' = l)); simpl; by rewrite IH.
Qed.

Lemma dispatch_events st action :
  (dispatch st action).2
  = (λ listener, Call listener [] (reducer st (state st) action))
      <$> listeners st.
Proof. reflexivity. Qed.


(** Only [dispatch] assigns [state], and nothing assigns [reducer]. *)
Lemma step_state st op :
  reducer (step st op).1 = reducer st
  ∧ state (step st op).1 =
      match op with
      | OpDispatch action => reducer st (state st) action
      | _ => state st
      end.
Proof. destruct op as [|action|l|[l]]; done. Qed.

Lemma run_state st ops :
  reducer (run st ops).1 = reducer st
  ∧ state (run st ops).1 = foldl (reducer st) (state st) (dispatched ops).
Proof.
  revert st. induction ops as [|op ops IH]; intros st; [done|].
  simpl. destruct (step_state st op) as [Hr Hs].
  destruct (step st op) as [st1 events] eqn:Hstep. simpl in Hr, Hs.
  destruct (IH st1) as [Hr' Hs'].
  destruct (run st1 ops) as [st2 events'] eqn:Hrun. simpl in *.
  rewrite Hr', Hs', Hr, Hs. split; [done|].
  destruct op; done.
Qed.

(** *** The README's closure *)

Lemma indexOf_absent ls l : l ∉ ls → indexOf ls l = (-1)%Z.
Proof.
  induction ls as [|l' ls IH]; [done|].
  rewrite not_elem_of_cons. intros [Hne Hnotin]. simpl.
  rewrite decide_False by done. by rewrite IH.
Qed.

(** [indexOf] finds the first entry. *)
Lemma indexOf_first pre l post :
  l ∉ pre → indexOf (pre ++ l :: post) l = Z.of_nat (length pre).
Proof.
  induction pre as [|l' pre IH].
  - intros _. simpl. by rewrite decide_True.
  - rewrite not_elem_of_cons. intros [Hne Hnotin]. simpl.
    rewrite decide_False by done. rewrite IH by done.
    destruct (Z.ltb_spec (-1) (Z.of_nat (length pre))); lia.
Qed.

Lemma splice_one pre l post : splice (pre ++ l :: post) (length pre) 1 = pre ++ post.
Proof.
  unfold splice. rewrite take_app_length. f_equal.
  rewrite drop_app_ge by lia.
  by replace (length pre + 1 - length pre)%nat with 1%nat by lia.
Qed.

Lemma readme_absent st l :
  l ∉ listeners st → unsubscribe_readme st (Unsub l) = st.
Proof. intros Hnotin. unfold unsubscribe_readme. by rewrite indexOf_absent. Qed.

Lemma readme_first st l pre post :
  listeners st = pre ++ l :: post → l ∉ pre →
  unsubscribe_readme st (Unsub l)
  = {| reducer := reducer st; state := state st; listeners := pre ++ post |}.
Proof.
  intros Hls Hnotin. unfold unsubscribe_readme.
  rewrite Hls, indexOf_first by done.
  destruct (Z.ltb_spec (-1) (Z.of_nat (length pre))); [|lia].
  by rewrite Nat2Z.id, splice_one.
Qed.

(** X2: invoked for a listener that is not in the array, the README's
    closure changes nothing. *)
Lemma unsubscribe_readme_absent st l :
  l ∉ listeners st → unsubscribe_readme st (Unsub l) = st.
Proof. apply readme_absent. Qed.

(** X6: the README's closure removes the first entry of its listener,
    and that entry alone. *)
Lemma unsubscribe_readme_first_entry st l pre post :
  listeners st = pre ++ l :: post → l ∉ pre →
  let st' := unsubscribe_readme st (Unsub l) in
  listeners st' = pre ++ post
  ∧ state st' = state st
  ∧ reducer st' = reducer st
  ∧ occurrences l (listeners st') = pred (occurrences l (listeners st)).
Proof.
  intros Hls Hnotin st'. subst st'.
  rewrite (readme_first st l pre post Hls Hnotin).
  simpl. split_and!; try done.
  rewrite Hls, !occurrences_app, occurrences_cons, decide_True by done. lia.
Qed.

(** X1: the README's closure undoes the subscription of a listener
    that had no other entry, and the listener is then called no more. *)
Lemma unsubscribe_readme_removes st l action :
  l ∉ listeners st →
  let '(st1, u) := subscribe st l in
  let st2 := unsubscribe_readme st1 u in
  st2 = st ∧ calls_to l (dispatch st2 action).2 = 0.
Proof.
  intros Hnotin. cbn -[dispatch calls_to unsubscribe_readme].
  rewrite (readme_first _ l (listeners st) []) by done.
  rewrite app_nil_r. simpl state. simpl reducer.
  assert (Heq : ∀ st', st' = st → st' = st ∧ calls_to l (dispatch st' action).2 = 0).
  { intros st' ->. split; [done|].
    rewrite dispatch_events, calls_to_notify. by apply occurrences_absent. }
  apply Heq. by destruct st.
Qed.

(** X7: a second invocation of the README's closure changes nothing
    when its listener had at most one entry before the first. *)
Lemma unsubscribe_readme_twice st l :
  (occurrences l (listeners st) ≤ 1)%nat →
  let st1 := unsubscribe_readme st (Unsub l) in
  unsubscribe_readme st1 (Unsub l) = st1.
Proof.
  intros Hle st1. subst st1.
  destruct (decide (l ∈ listeners st)) as [Hin|Hnotin].
  - apply list_elem_of_split_l in Hin as (pre & post & Hls & Hpre).
    rewrite (readme_first st l pre post Hls Hpre).
    apply readme_absent. simpl.
    rewrite Hls, occurrences_app, occurrences_cons, decide_True in Hle by done.
    rewrite not_elem_of_app. split; [done|].
    destruct (decide (l ∈ post)) as [Hpost|]; [|done].
    apply list_elem_of_split_l in Hpost as (post1 & post2 & -> & _).
    rewrite occurrences_app, occurrences_cons, decide_True in Hle by done. lia.
  - by rewrite !(readme_absent st l Hnotin).
Qed.

(** *** Claims *)

(** C4: [createStore(reducer)] sets the state to
    [reducer(undefined, { type: '__INIT__' })], which is what
    [getState()] returns before any dispatch; whatever the client does
    next, the state is that value with the reducer applied to the
    dispatched actions in order, so nothing but [dispatch] replaces it
    and the initialisation happens once. *)
Theorem createStore_initialises_once r :
  getState (createStore undefined r : Store) = r undefined INIT
  ∧ listeners (createStore undefined r : Store) = []
  ∧ ∀ ops : list Op, getState (run (createStore undefined r) ops).1
           = foldl r (r undefined INIT) (dispatched ops).
Proof.
  repeat split. intros ops.
  destruct (run_state (createStore undefined r) ops) as [_ Hstate].
  exact Hstate.
Qed.



(** C1 (the defect of [src/frame.js]): once subscribed, a listener is
    called by every later dispatch whether or not the closure that
    [subscribe] returned has been invoked in between: the closure
    leaves the store as it was. *)
Theorem unsubscribe_does_not_remove st l action :
  let '(st1, u) := subscribe st l in
  let '(st2, removed) := unsubscribe st1 u in
  st2 = st1
  ∧ l ∈ listeners st2
  ∧ calls_to l (dispatch st2 action).2 = S (occurrences l (listeners st)).
Proof.
  cbn -[dispatch calls_to occurrences]. repeat split.
  - apply elem_of_app. right. by apply list_elem_of_singleton.
  - rewrite dispatch_events, calls_to_notify. simpl.
    rewrite occurrences_app, occurrences_cons, decide_True by done.
    rewrite occurrences_nil. lia.
Qed.

End store_properties.

(** * The store over sequences of operations *)

Section store_runs.
Import Store.

Context {State Payload Listener : Type} `{EqDecision Listener}.

Abbreviation Store := (@Store State Payload Listener).
Abbreviation Action := (@Action Payload).
Abbreviation Event := (@Event State Payload Listener).
Abbreviation Op := (@Op Payload Listener).

Implicit Types (st : Store) (action : Action) (l : Listener)
  (ls : list Listener) (op : Op) (ops : list Op) (events : list Event).

Lemma calls_to_app l events events' :
  calls_to l (events ++ events') = (calls_to l events + calls_to l events')%nat.
Proof. unfold calls_to. by rewrite filter_app, length_app. Qed.

Lemma step_listeners st op :
  listeners (step st op).1
  = listeners st ++ match op with OpSubscribe l => [l] | _ => [] end.
Proof. destruct op as [|action|l|[l]]; simpl; by rewrite ?app_nil_r. Qed.

(** Operations compose: a sequence runs as its first part and then,
    from the store that part left, its second part. *)
Lemma run_app st ops ops' :
  run st (ops ++ ops')
  = let '(st1, events) := run st ops in
    let '(st2, events') := run st1 ops' in
    (st2, events ++ events').
Proof.
  revert st. induction ops as [|op ops IH]; intros st; simpl.
  - by destruct (run st ops').
  - destruct (step st op) as [st1 e1]. rewrite IH.
    destruct (run st1 ops) as [st2 e2]. destruct (run st2 ops') as [st3 e3].
    by rewrite app_assoc.
Qed.

Lemma run_listeners st ops :
  listeners (run st ops).1 = listeners st ++ subscribed ops.
Proof.
  revert st. induction ops as [|op ops IH]; intros st; simpl.
  - by rewrite app_nil_r.
  - pose proof (step_listeners st op) as Hstep.
    destruct (step st op) as [st1 e1]. simpl in Hstep.
    specialize (IH st1). destruct (run st1 ops) as [st2 e2]. simpl in *.
    rewrite IH, Hstep, <- app_assoc. f_equal. by destruct op.
Qed.

Lemma filter_absent l ls : l ∉ ls → filter (λ l', l' ≠ l) ls = ls.
Proof.
  induction ls as [|l' ls IH]; [done|].
  rewrite not_elem_of_cons. intros [Hne Hnotin].
  rewrite filter_cons_True by done. by rewrite IH.
Qed.

Lemma occurrences_pos l ls : l ∈ ls → (0 < occurrences l ls)%nat.
Proof.
  intros (pre & post & ->)%list_elem_of_split.
  rewrite occurrences_app, occurrences_cons, decide_True by done. lia.
Qed.

Lemma occurrences_filter_other l l' ls :
  l' ≠ l → occurrences l' (filter (λ x, x ≠ l) ls) = occurrences l' ls.
Proof.
  intros Hne. induction ls as [|x ls IH]; [done|].
  rewrite filter_cons. destruct (decide (x ≠ l)) as [Hx|Hx].
  - by rewrite !occurrences_cons, IH.
  - apply dec_stable in Hx as ->.
    by rewrite occurrences_cons, decide_False, IH.
Qed.

(** What the README's closure does to the number of entries of every
    listener. *)
Lemma readme_occurrences st l l' :
  occurrences l' (listeners (unsubscribe_readme st (Unsub l)))
  = if decide (l' = l) then pred (occurrences l (listeners st))
    else occurrences l' (listeners st).
Proof.
  destruct (decide (l ∈ listeners st)) as [Hin|Hnotin].
  - apply list_elem_of_split_l in Hin as (pre & post & Hls & Hpre).
    rewrite (readme_first st l pre post Hls Hpre), Hls. simpl.
    rewrite !occurrences_app, !occurrences_cons.
    destruct (decide (l' = l)) as [->|Hne].
    + rewrite decide_True by done. lia.
    + by rewrite decide_False by done.
  - rewrite (readme_absent st l Hnotin).
    destruct (decide (l' = l)) as [->|]; [|done].
    by rewrite occurrences_absent.
Qed.

(** *** Properties *)

(** X3: with [src/frame.js] the array of listeners never loses an
    entry: after any sequence of operations it is the array as it was,
    followed by every listener the sequence subscribed, in the order of
    the subscriptions, whatever closures were invoked in between. *)
Theorem listeners_never_shrink st ops :
  listeners (run st ops).1 = listeners st ++ subscribed ops
  ∧ (length (listeners st) ≤ length (listeners (run st ops).1))%nat
  ∧ ∀ l, l ∈ listeners st ∨ l ∈ subscribed ops → l ∈ listeners (run st ops).1.
Proof.
  rewrite run_listeners, length_app. split_and!; [done|lia|].
  intros l. by rewrite elem_of_app.
Qed.

(** X5: each invocation of the README's closure takes one entry of its
    listener out of the array when there is one, and leaves the number
    of entries of every other listener as it is. *)
Theorem unsubscribe_readme_counts st l l' :
  occurrences l' (listeners (unsubscribe_readme st (Unsub l)))
  = (if decide (l' = l) then pred (occurrences l (listeners st))
     else occurrences l' (listeners st))
  ∧ length (listeners (unsubscribe_readme st (Unsub l)))
    = (if decide (l ∈ listeners st) then pred (length (listeners st))
       else length (listeners st)).
Proof.
  split; [apply readme_occurrences|].
  destruct (decide (l ∈ listeners st)) as [Hin|Hnotin].
  - apply list_elem_of_split_l in Hin as (pre & post & Hls & Hpre).
    rewrite (readme_first st l pre post Hls Hpre), Hls. simpl.
    rewrite !length_app. simpl. lia.
  - by rewrite (readme_absent st l Hnotin).
Qed.

(** The calls of a dispatch that follows a sequence of operations, when
    the listeners leave the store alone. *)
Lemma run_dispatch_events st ops action :
  (run st (ops ++ [OpDispatch action])).2
  = (run st ops).2
    ++ ((λ l, Call l [] (foldl (reducer st) (state st)
                           (dispatched ops ++ [action])))
          <$> (listeners st ++ subscribed ops)).
Proof.
  rewrite run_app.
  pose proof (run_listeners st ops) as Hls.
  destruct (run_state st ops) as [Hr Hs].
  destruct (run st ops) as [st1 e1]. simpl in *.
  rewrite app_nil_r, Hls, Hr, Hs. by rewrite foldl_snoc.
Qed.

(** X9: a listener that was never subscribed is never called. *)
Theorem never_subscribed_never_called st ops l :
  l ∉ listeners st → l ∉ subscribed ops → calls_to l (run st ops).2 = 0%nat.
Proof.
  revert st. induction ops as [|op ops IH]; intros st Hst Hops; [done|].
  simpl. pose proof (step_listeners st op) as Hstep.
  assert (Hop : calls_to l (step st op).2 = 0%nat).
  { destruct op as [|action|l'|[l']]; try done.
    simpl. rewrite calls_to_notify. by apply occurrences_absent. }
  destruct (step st op) as [st1 e1]. simpl in Hstep, Hop.
  assert (Hst1 : l ∉ listeners st1).
  { rewrite Hstep, not_elem_of_app. split; [done|].
    destruct op as [|action|l'|[l']]; try apply not_elem_of_nil.
    simpl in Hops. rewrite not_elem_of_cons in Hops.
    rewrite list_elem_of_singleton. tauto. }
  assert (Hops' : l ∉ subscribed ops).
  { destruct op as [|action|l'|[l']]; try done.
    simpl in Hops. rewrite not_elem_of_cons in Hops. tauto. }
  specialize (IH st1 Hst1 Hops').
  destruct (run st1 ops) as [st2 e2]. simpl in *.
  rewrite calls_to_app. lia.
Qed.

(** X10: only [dispatch] calls listeners: a sequence of operations
    that dispatches nothing calls nobody; in particular [subscribe] does
    not call the listener it registers. *)
Theorem no_dispatch_no_call st ops :
  dispatched ops = [] → (run st ops).2 = [].
Proof.
  revert st. induction ops as [|op ops IH]; intros st Hops; [done|].
  assert (Hstep : (step st op).2 = [] ∧ dispatched ops = []).
  { by destruct op as [|action|l|[l]]. }
  destruct Hstep as [Hstep Hops']. simpl.
  destruct (step st op) as [st1 e1]. simpl in Hstep. subst e1.
  specialize (IH st1 Hops'). destruct (run st1 ops) as [st2 e2].
  simpl in *. by subst e2.
Qed.

(** X11: the closure of [src/frame.js] returns the array the store
    would need: no entry of its listener, and the entries of every other
    listener, in their order; the store itself still has the old array. *)
Theorem unsubscribe_returns_filtered st l :
  let '(st', removed) := unsubscribe st (Unsub l) in
  st' = st
  ∧ (l ∉ removed)
  ∧ (removed `sublist_of` listeners st)
  ∧ (∀ l', l' ≠ l → occurrences l' removed = occurrences l' (listeners st))
  ∧ (l ∉ listeners st → removed = listeners st).
Proof.
  simpl. split_and!; [done|..].
  - rewrite list_elem_of_filter. by intros [? _].
  - apply sublist_filter.
  - intros l' Hne. by apply occurrences_filter_other.
  - apply filter_absent.
Qed.

(** X12: the array the closure of [src/frame.js] returns is the array
    the README's closure leaves in the store exactly when the listener
    has at most one entry. *)
Theorem unsubscribe_variants_agree st l :
  listeners (unsubscribe_readme st (Unsub l)) = (unsubscribe st (Unsub l)).2
  ↔ (occurrences l (listeners st) ≤ 1)%nat.
Proof.
  change ((unsubscribe st (Unsub l)).2)
    with (filter (λ l', l' ≠ l) (listeners st)).
  split.
  - intros Heq.
    assert (Hcount : occurrences l (listeners (unsubscribe_readme st (Unsub l)))
                     = 0%nat).
    { rewrite Heq. apply occurrences_absent.
      rewrite list_elem_of_filter. by intros [? _]. }
    rewrite readme_occurrences, decide_True in Hcount by done. lia.
  - intros Hle. destruct (decide (l ∈ listeners st)) as [Hin|Hnotin].
    + apply list_elem_of_split_l in Hin as (pre & post & Hls & Hpre).
      rewrite (readme_first st l pre post Hls Hpre), Hls. simpl.
      rewrite Hls, occurrences_app, occurrences_cons, decide_True in Hle by done.
      assert (Hpost : l ∉ post).
      { intros Hin%occurrences_pos. lia. }
      rewrite filter_app, filter_cons_False by (by intros []).
      by rewrite !filter_absent.
    + rewrite (readme_absent st l Hnotin). by rewrite filter_absent.
Qed.

End store_runs.

(** * The store when listeners act *)

Section store_reentrant.
Import Store.

Context {State Payload Listener : Type} `{EqDecision Listener}.

Abbreviation Store := (@Store State Payload Listener).
Abbreviation Action := (@Action Payload).
Abbreviation Event := (@Event State Payload Listener).
Abbreviation Op := (@Op Payload Listener).
Abbreviation Script := (@Reentrant.Script State Payload Listener).
Abbreviation Completion := Reentrant.Completion.

Implicit Types (st : Store) (action : Action) (l : Listener)
  (ls : list Listener) (op : Op) (ops : list Op) (events : list Event)
  (script : Script) (code : Listener → Script)
  (nested : Store → Action → Store * list Event * Completion).

Lemma interpret_quiet nested script st :
  Reentrant.Quiet script →
  Reentrant.interpret nested script st = (st, [], Reentrant.Completed).
Proof.
  induction 1 as [|k _ IH|[l] k _ IH]; simpl; [done|apply IH|apply IH].
Qed.


(** A pass over listeners that leave the store alone calls them all. *)
Lemma notify_quiet nested code ls st :
  Forall (λ l, Reentrant.Quiet (code l)) ls →
  Reentrant.notify (λ l, Reentrant.interpret nested (code l)) ls st
  = (st, (λ l, Call l [] (state st)) <$> ls, Reentrant.Completed).
Proof.
  induction 1 as [|l ls Hl _ IH]; simpl; [done|].
  by rewrite (interpret_quiet nested (code l) st Hl), IH.
Qed.






(** With listeners that leave the store alone, a dispatch is the
    dispatch of [Store]. *)
Lemma dispatch_quiet (fuel : nat) code st action :
  Forall (λ l, Reentrant.Quiet (code l)) (listeners st) →
  Reentrant.dispatch (S fuel) code st action
  = (dispatch st action, Reentrant.Completed).
Proof. intros Hquiet. simpl. by rewrite notify_quiet. Qed.

Lemma run_quiet (fuel : nat) code st ops :
  (∀ l, Reentrant.Quiet (code l)) →
  Reentrant.run (S fuel) code st ops = (run st ops, Reentrant.Completed).
Proof.
  intros Hquiet. revert st. induction ops as [|op ops IH]; intros st; [done|].
  cbn [Reentrant.run run].
  assert (Hop : match op with
                | OpDispatch action => Reentrant.dispatch (S fuel) code st action
                | _ => (step st op, Reentrant.Completed)
                end = (step st op, Reentrant.Completed)).
  { destruct op as [|action|l|u]; try done.
    apply dispatch_quiet, Forall_forall. intros l _. apply Hquiet. }
  rewrite Hop. destruct (step st op) as [st1 e1]. rewrite IH.
  by destruct (run st1 ops) as [st2 e2].
Qed.

(** *** Claims *)


(** X8: when the listeners leave the store alone, a dispatch that
    follows any sequence of operations returns after it has called, in
    the order of their subscriptions, the listeners the store had and
    those the sequence subscribed, the cancelled ones with the others,
    each with no argument and with the state in place that the reducer
    gives for the actions dispatched so far. *)
Theorem dispatch_after_run_notifies (fuel : nat) code st ops action :
  (∀ l, Reentrant.Quiet (code l)) →
  let before := Reentrant.run (S fuel) code st ops in
  let after := Reentrant.run (S fuel) code st (ops ++ [OpDispatch action]) in
  after.2 = Reentrant.Completed
  ∧ after.1.2
    = before.1.2
      ++ ((λ l, Call l [] (foldl (reducer st) (state st)
                             (dispatched ops ++ [action])))
            <$> (listeners st ++ subscribed ops)).
Proof.
  intros Hquiet before after. subst before after.
  rewrite !run_quiet by done. split; [done|]. apply run_dispatch_events.
Qed.

End store_reentrant.

(** * Properties of the virtual nodes *)

Section frame_properties.
Import Js Dom Frame Tree.

Implicit Types (h : Heap) (v value type props vNode : Val) (key k : string)
  (fields entries : list (string * Val)) (children kids : list Val)
  (element el container : Element Node) (node : Node) (nodes : list Node).

(** *** Objects *)

Lemma obj_get_set fields k value key :
  obj_get (obj_set fields k value) key
  = if String.eqb key k then value else obj_get fields key.
Proof.
  induction fields as [|[k' v'] fields IH]; simpl.
  - rewrite String.eqb_sym. by destruct (String.eqb key k).
  - destruct (String.eqb_spec k' k) as [->|Hne]; simpl.
    + rewrite String.eqb_sym. by destruct (String.eqb key k).
    + destruct (String.eqb_spec k' key) as [->|Hne']; [|done].
      destruct (String.eqb_spec key k); congruence.
Qed.

Lemma keys_cons k value fields : keys ((k, value) :: fields) = k :: keys fields.
Proof. reflexivity. Qed.

Lemma keys_app fields fields' : keys (fields ++ fields') = keys fields ++ keys fields'.
Proof. apply fmap_app. Qed.

Lemma obj_set_fresh fields k value :
  k ∉ keys fields → obj_set fields k value = fields ++ [(k, value)].
Proof.
  induction fields as [|[k' v'] fields IH]; [done|].
  rewrite keys_cons, not_elem_of_cons. intros [Hne Hnotin]. simpl.
  destruct (String.eqb_spec k' k); [congruence|]. by rewrite IH.
Qed.

Lemma keys_obj_set_present fields k value :
  k ∈ keys fields → keys (obj_set fields k value) = keys fields.
Proof.
  induction fields as [|[k' v'] fields IH]; [by intros ?%elem_of_nil|].
  rewrite keys_cons, elem_of_cons. simpl.
  destruct (String.eqb_spec k' k) as [->|Hne]; [done|].
  intros [->|Hin]; [done|]. by rewrite !keys_cons, IH.
Qed.

Lemma elem_of_keys_obj_set fields k value key :
  key ∈ keys (obj_set fields k value) ↔ key = k ∨ key ∈ keys fields.
Proof.
  destruct (decide (k ∈ keys fields)) as [Hin|Hnotin].
  - rewrite keys_obj_set_present by done.
    split; [by right|]. by intros [->|?].
  - rewrite obj_set_fresh by done.
    rewrite keys_app, elem_of_app, keys_cons, list_elem_of_singleton.
    tauto.
Qed.

(** *** Allocation *)

Lemma lookup_alloc_new h (c : Cell) : (h ++ [c]) !! length h = Some c.
Proof. by apply list_lookup_middle. Qed.

Lemma lookup_alloc_old h (c c' : Cell) (a : addr) :
  h !! a = Some c → (h ++ [c']) !! a = Some c.
Proof. apply lookup_app_l_Some. Qed.

Lemma own_entries_alloc h (c : Cell) v :
  valid h v → own_entries (h ++ [c]) v = own_entries h v.
Proof.
  destruct v as [| | | | | |a]; try done. intros Hlt.
  unfold own_entries. by rewrite lookup_app_l.
Qed.

Lemma valid_alloc h (c : Cell) v : valid h v → valid (h ++ [c]) v.
Proof.
  destruct v; try done. simpl. rewrite length_app. simpl. lia.
Qed.

(** [createElement] allocates the array of the children, the object
    of the properties and the node, in this order, after the heap it was
    given (and after the default [{}] when [props] is [undefined]). *)
Lemma createElement_allocates type props children h :
  valid h props →
  ∃ h0, h `prefix_of` h0
    ∧ createElement type props children h
      = (VRef (S (S (length h0))),
         h0 ++ [CArr children;
                CObj (obj_set (own_entries h props) "children"
                        (VRef (length h0)));
                CObj [("type", type); ("props", VRef (S (length h0)))]]).
Proof.
  intros Hvalid.
  assert (Hgen : ∀ props' h0, valid h0 props' →
    (let '(children', h1) := alloc (CArr children) h0 in
     let '(props'', h2) :=
       alloc (CObj (obj_set (own_entries h1 props') "children" children')) h1 in
     alloc (CObj [("type", type); ("props", props'')]) h2)
    = (VRef (S (S (length h0))),
       h0 ++ [CArr children;
              CObj (obj_set (own_entries h0 props') "children"
                      (VRef (length h0)));
              CObj [("type", type); ("props", VRef (S (length h0)))]])).
  { intros props' h0 Hv. unfold alloc.
    rewrite own_entries_alloc by done.
    rewrite !length_app. simpl. rewrite <- !app_assoc. simpl.
    by rewrite !Nat.add_1_r. }
  unfold createElement.
  destruct props; try (exists h; split; [done|]; by apply Hgen).
  exists (h ++ [CObj []]). split; [by apply prefix_app_r|].
  unfold alloc at 1.
  rewrite (Hgen (VRef (length h)) (h ++ [CObj []])).
  - simpl. by rewrite lookup_alloc_new.
  - simpl. rewrite length_app. simpl. lia.
Qed.

(** The three cells [createElement] has just allocated. *)
Lemma lookup_new_cells h0 (c0 c1 c2 : Cell) :
  (h0 ++ [c0; c1; c2]) !! length h0 = Some c0
  ∧ (h0 ++ [c0; c1; c2]) !! S (length h0) = Some c1
  ∧ (h0 ++ [c0; c1; c2]) !! S (S (length h0)) = Some c2.
Proof.
  repeat split.
  - by apply list_lookup_middle.
  - rewrite lookup_app_r by lia.
    by replace (S (length h0) - length h0)%nat with 1%nat by lia.
  - rewrite lookup_app_r by lia.
    by replace (S (S (length h0)) - length h0)%nat with 2%nat by lia.
Qed.

(** *** Claims on [createElement] *)

(** C9: when the attributes object already has a [children] key, the
    node's properties keep the keys of that object, no more, and hold
    under [children] the new array of the arguments in place of the
    value the object has there; every other key has the value the object
    has. The attributes object itself is after the call the cell it was
    before: the properties of the node are another object. *)
Theorem createElement_children_overwritten type (p : addr) entries children h :
  h !! p = Some (CObj entries) →
  "children" ∈ keys entries →
  let '(vNode, h') := createElement type (VRef p) children h in
  h' !! p = Some (CObj entries)
  ∧ ∃ (a q c : addr) entries',
      vNode = VRef a
      ∧ h' !! a = Some (CObj [("type", type); ("props", VRef q)])
      ∧ q ≠ p
      ∧ h' !! q = Some (CObj entries')
      ∧ keys entries' = keys entries
      ∧ obj_get entries' "children" = VRef c
      ∧ h' !! c = Some (CArr children)
      ∧ (length h ≤ c)%nat
      ∧ ∀ key, key ≠ "children" → obj_get entries' key = obj_get entries key.
Proof.
  intros Hp Hin.
  assert (Hvalid : valid h (VRef p)) by (by eapply lookup_lt_Some).
  assert (Hown : own_entries h (VRef p) = entries) by (simpl; by rewrite Hp).
  destruct (createElement_allocates type (VRef p) children h Hvalid)
    as (h0 & Hprefix & ->).
  rewrite Hown.
  destruct (lookup_new_cells h0 (CArr children)
    (CObj (obj_set entries "children" (VRef (length h0))))
    (CObj [("type", type); ("props", VRef (S (length h0)))]))
    as (Hc & Hq & Ha).
  pose proof (prefix_length _ _ Hprefix) as Hlen.
  simpl in Hvalid.
  split.
  - apply lookup_app_l_Some. by eapply prefix_lookup_Some.
  - exists (S (S (length h0))), (S (length h0)), (length h0),
      (obj_set entries "children" (VRef (length h0))).
    split_and!; try done; try lia.
    + by apply keys_obj_set_present.
    + by rewrite obj_get_set.
    + intros key Hne. rewrite obj_get_set.
      by destruct (String.eqb_spec key "children").
Qed.

(** *** Rendering *)

Lemma obj_get_absent fields key : key ∉ keys fields → obj_get fields key = VUndefined.
Proof.
  induction fields as [|[k v] fields IH]; [done|].
  rewrite keys_cons, not_elem_of_cons. intros [Hne Hnotin]. simpl.
  destruct (String.eqb_spec k key); [congruence|]. by apply IH.
Qed.

Lemma obj_get_elem_of fields key value :
  NoDup (keys fields) → (key, value) ∈ fields → obj_get fields key = value.
Proof.
  induction fields as [|[k v] fields IH]; [by intros _ ?%elem_of_nil|].
  rewrite keys_cons, NoDup_cons, elem_of_cons. intros [Hnotin Hnodup] Hin. simpl.
  destruct (String.eqb_spec k key) as [->|Hne].
  - destruct Hin as [[= ->]|Hin]; [done|].
    destruct Hnotin. apply list_elem_of_fmap. by exists (key, value).
  - destruct Hin as [[= -> ->]|Hin]; [done|]. by apply IH.
Qed.

Lemma bind_Ok {A B : Type} (a : A) (k : A → Result B) : (Ok a ≫= k) = k a.
Proof. reflexivity. Qed.

Lemma forEach_cons {A B : Type} (x : A) xs (body : B → A → Result B) acc :
  forEach (x :: xs) body acc = (body acc x ≫= forEach xs body).
Proof. reflexivity. Qed.

Lemma renderElement_text fuel h s :
  renderElement (S fuel) h (VStr s) = Ok (TextNode s).
Proof. reflexivity. Qed.

(** The rendering of an object, its two reads done. *)
Lemma renderElement_object fuel h (a : addr) fields :
  h !! a = Some (CObj fields) →
  renderElement (S fuel) h (VRef a)
  = (element ← forEach
       (if truthy (obj_get fields "props")
        then own_entries h (obj_get fields "props") else [])
       (assign_entry (renderElement fuel h) h)
       (document_createElement (obj_get fields "type"));
     Ok (ElementNode element)).
Proof. intros Ha. simpl. unfold member. by rewrite Ha. Qed.

(** The inner loop appends the rendered children in order. *)
Lemma forEach_append_rendered (f : Val → Result Node) kids nodes el :
  Forall2 (λ kid node, f kid = Ok node) kids nodes →
  forEach kids (append_rendered f) el
  = Ok (mkElement (tag el) (properties el) (childNodes el ++ nodes)).
Proof.
  intros Hall. revert el.
  induction Hall as [|kid node kids nodes Hkid _ IH]; intros el; simpl.
  - rewrite app_nil_r. by destruct el.
  - assert (append_rendered f el kid = Ok (appendChild el node)) as ->
      by (unfold append_rendered; by rewrite Hkid).
    simpl. rewrite IH. simpl. by rewrite <- app_assoc.
Qed.

(** The outer loop, on the entries of an object whose [children], if it
    has the key, is the array [kids]: it assigns the other entries in
    order and appends the rendered [kids]. *)
Lemma forEach_assign_entry (f : Val → Result Node) h (c : addr) kids nodes :
  h !! c = Some (CArr kids) →
  Forall2 (λ kid node, f kid = Ok node) kids nodes →
  ∀ entries el,
    NoDup (keys entries) →
    (∀ key, key ∈ keys entries → key ∉ keys (properties el)) →
    (∀ value, ("children", value) ∈ entries → value = VRef c) →
    forEach entries (assign_entry f h) el
    = Ok (mkElement (tag el) (properties el ++ attributes entries)
            (childNodes el
             ++ if decide ("children" ∈ keys entries) then nodes else [])).
Proof.
  intros Hc Hkids.
  induction entries as [|[k v] entries IH]; intros el Hnodup Hfresh Hchildren.
  - simpl. rewrite !app_nil_r. by destruct el.
  - rewrite keys_cons, NoDup_cons in Hnodup. destruct Hnodup as [Hk Hnodup].
    rewrite forEach_cons.
    destruct (decide (k = "children")) as [->|Hne].
    + assert (assign_entry f h el ("children", v)
              = Ok (mkElement (tag el) (properties el) (childNodes el ++ nodes)))
        as ->.
      { rewrite (Hchildren v) by (by left). simpl. unfold forEach_receiver.
        rewrite Hc. by apply forEach_append_rendered. }
      rewrite bind_Ok, IH; [|done|..].
      * unfold attributes. rewrite filter_cons_False by (by intros []).
        rewrite (decide_False (P := "children" ∈ keys entries)) by done.
        rewrite keys_cons, decide_True by (by left). simpl.
        by rewrite app_nil_r.
      * intros key Hkey. apply Hfresh. rewrite keys_cons. by right.
      * intros value Hvalue. apply Hchildren. by right.
    + assert (Hk' : k ∉ keys (properties el)).
      { apply Hfresh. rewrite keys_cons. by left. }
      assert (assign_entry f h el (k, v)
              = Ok (mkElement (tag el) (properties el ++ [(k, v)]) (childNodes el)))
        as ->.
      { simpl. destruct (String.eqb_spec k "children"); [done|].
        unfold set_property. by rewrite obj_set_fresh. }
      rewrite bind_Ok, IH; [|done|..].
      * unfold attributes. rewrite filter_cons_True by done. rewrite keys_cons.
        assert ((if decide ("children" ∈ k :: keys entries) then nodes else [])
                = (if decide ("children" ∈ keys entries) then nodes else []))
          as ->.
        { destruct (decide ("children" ∈ keys entries)) as [Hin|Hnotin].
          - by rewrite decide_True by (by right).
          - rewrite decide_False; [done|].
            rewrite not_elem_of_cons. split; [congruence|done]. }
        simpl. by rewrite <- app_assoc.
      * intros key Hkey. simpl.
        rewrite keys_app, keys_cons, not_elem_of_app, not_elem_of_cons.
        split_and!.
        -- apply Hfresh. rewrite keys_cons. by right.
        -- by intros ->.
        -- apply not_elem_of_nil.
      * intros value Hvalue. apply Hchildren. by right.
Qed.

(** **** More fuel changes no result *)

Lemma forEach_more_fuel {A B : Type} (body body' : B → A → Result B) xs :
  (∀ acc x r, body acc x = r → r ≠ OutOfFuel → body' acc x = r) →
  ∀ acc r, forEach xs body acc = r → r ≠ OutOfFuel → forEach xs body' acc = r.
Proof.
  intros Hbody. induction xs as [|x xs IH]; intros acc r; [done|].
  rewrite !forEach_cons.
  destruct (body acc x) as [acc'| |] eqn:Hx; simpl; intros <- Hr.
  - rewrite (Hbody _ _ _ Hx) by done. simpl. by apply IH.
  - by rewrite (Hbody _ _ _ Hx).
  - done.
Qed.

Lemma append_rendered_more_fuel (f f' : Val → Result Node) :
  (∀ v r, f v = r → r ≠ OutOfFuel → f' v = r) →
  ∀ el child r, append_rendered f el child = r → r ≠ OutOfFuel →
                append_rendered f' el child = r.
Proof.
  intros Hf el child r. unfold append_rendered.
  destruct (f child) as [node| |] eqn:Hchild; simpl; intros <- Hr;
    [by rewrite (Hf _ _ Hchild)..|done].
Qed.

Lemma assign_entry_more_fuel (f f' : Val → Result Node) h :
  (∀ v r, f v = r → r ≠ OutOfFuel → f' v = r) →
  ∀ el entry r, assign_entry f h el entry = r → r ≠ OutOfFuel →
                assign_entry f' h el entry = r.
Proof.
  intros Hf el [key value] r. simpl.
  destruct (String.eqb key "children"); [|done].
  destruct (forEach_receiver h value) as [children| |]; simpl; [|done..].
  apply forEach_more_fuel. by apply append_rendered_more_fuel.
Qed.

Lemma bind_more_fuel {A B : Type} (m : Result A) (k k' : A → Result B) :
  (∀ a r, k a = r → r ≠ OutOfFuel → k' a = r) →
  ∀ r, m ≫= k = r → r ≠ OutOfFuel → m ≫= k' = r.
Proof. intros Hk r. destruct m; simpl; [apply Hk|done..]. Qed.

Lemma bind_more_fuel_l {A B : Type} (m m' : Result A) (k : A → Result B) :
  (∀ r, m = r → r ≠ OutOfFuel → m' = r) →
  ∀ r, m ≫= k = r → r ≠ OutOfFuel → m' ≫= k = r.
Proof.
  intros Hm r. destruct m as [a| |] eqn:Heq; simpl; intros <- Hr;
    [by rewrite (Hm _ eq_refl)..|done].
Qed.

Lemma renderElement_unfold (fuel : nat) h vNode :
  renderElement (S fuel) h vNode
  = match vNode with
    | VStr s => Ok (createTextNode s)
    | _ =>
        type ← member h vNode "type";
        props ← member h vNode "props";
        element ← forEach (if truthy props then own_entries h props else [])
                    (assign_entry (renderElement fuel h) h)
                    (document_createElement type);
        Ok (ElementNode element)
    end.
Proof. by destruct vNode. Qed.

Lemma renderElement_more_fuel (fuel fuel' : nat) h vNode r :
  renderElement fuel h vNode = r → r ≠ OutOfFuel → (fuel ≤ fuel')%nat →
  renderElement fuel' h vNode = r.
Proof.
  revert fuel' vNode r.
  induction fuel as [|fuel IH]; intros fuel' vNode r; [by intros <-|].
  intros Hr Hne Hle. destruct fuel' as [|fuel']; [lia|].
  rewrite renderElement_unfold in Hr |- *.
  assert (Hstep : ∀ v r', renderElement fuel h v = r' → r' ≠ OutOfFuel →
                          renderElement fuel' h v = r').
  { intros v r' Hv Hr'. apply (IH fuel' v r' Hv Hr'). lia. }
  revert r Hr Hne.
  destruct vNode; try done;
    (apply bind_more_fuel; intros type; apply bind_more_fuel; intros props;
     apply bind_more_fuel_l;
     apply forEach_more_fuel; by apply assign_entry_more_fuel).
Qed.

(** [renderElement] returns a node as soon as it does with some fuel. *)
Lemma renderElement_returns_iff h vNode node :
  renderElement_returns h vNode node
  ↔ ∃ fuel : nat, renderElement fuel h vNode = Ok node.
Proof.
  split.
  - intros (fuel0 & Hfuel0). exists fuel0. by apply Hfuel0.
  - intros (fuel0 & Hfuel0). exists fuel0. intros fuel Hle.
    by apply (renderElement_more_fuel fuel0).
Qed.

(** Induction on a VNode tree, with the hypothesis on every child. *)
Lemma VNodeTree_induction h (P : Val → Prop) :
  (∀ s, P (VStr s)) →
  (∀ (a : addr) fields name (p : addr) entries (c : addr) kids,
     h !! a = Some (CObj fields) →
     obj_get fields "type" = VStr name →
     obj_get fields "props" = VRef p →
     h !! p = Some (CObj entries) →
     NoDup (keys entries) →
     obj_get entries "children" = VRef c →
     h !! c = Some (CArr kids) →
     Forall (VNodeTree h) kids →
     Forall P kids →
     P (VRef a)) →
  ∀ v, VNodeTree h v → P v.
Proof.
  intros Htext Helement. fix IH 2.
  intros v [s|a fields name p entries c kids Ha Htype Hprops Hp Hnodup Hchildren Hc Hkids].
  - apply Htext.
  - assert (HP : Forall P kids).
    { clear Hc. induction Hkids as [|kid kids Hkid _ IHkids]; constructor;
        [by apply IH|done]. }
    by eapply Helement.
Qed.

(** Children that each render to an isomorphic node render, from some
    fuel on, to a list of nodes isomorphic to them one by one. *)
Lemma Forall_rendered h kids :
  Forall (λ kid, ∃ node, Isomorphic h kid node ∧ renderElement_returns h kid node)
    kids →
  ∃ nodes, Forall2 (Isomorphic h) kids nodes
    ∧ ∃ fuel0 : nat, ∀ fuel : nat, (fuel0 ≤ fuel)%nat →
        Forall2 (λ kid node, renderElement fuel h kid = Ok node) kids nodes.
Proof.
  induction 1 as [|kid kids (node & Hiso & fuel1 & Hfuel1) _
                   (nodes & Hisos & fuel2 & Hfuel2)].
  - exists []. split; [constructor|]. exists 0%nat. intros; constructor.
  - exists (node :: nodes). split; [by constructor|].
    exists (fuel1 `max` fuel2)%nat. intros fuel Hle.
    constructor; [apply Hfuel1|apply Hfuel2]; lia.
Qed.

(** [renderElement] turns a VNode tree into a node isomorphic to it. *)
Lemma renderElement_isomorphic h T :
  VNodeTree h T →
  ∃ node, Isomorphic h T node ∧ renderElement_returns h T node.
Proof.
  induction 1 as [s|a fields name p entries c kids Ha Htype Hprops Hp Hnodup
                    Hchildren Hc Hkids IH] using VNodeTree_induction.
  - exists (TextNode s). split; [constructor|].
    exists 1%nat. intros [|fuel] Hle; [lia|]. apply renderElement_text.
  - destruct (Forall_rendered h kids IH) as (nodes & Hisos & fuel0 & Hfuel0).
    exists (ElementNode (mkElement (obj_get fields "type") (attributes entries) nodes)).
    split; [by eapply Iso_element|].
    exists (S fuel0). intros [|fuel] Hle; [lia|].
    assert (Hin : "children" ∈ keys entries).
    { destruct (decide ("children" ∈ keys entries)) as [|Hnotin]; [done|].
      apply obj_get_absent in Hnotin. congruence. }
    rewrite (renderElement_object _ _ _ _ Ha), Hprops. simpl truthy.
    unfold own_entries. rewrite Hp.
    rewrite (forEach_assign_entry _ h c kids nodes Hc (Hfuel0 fuel ltac:(lia))
               entries _ Hnodup).
    + rewrite decide_True by done. reflexivity.
    + intros key _. apply not_elem_of_nil.
    + intros value Hvalue.
      apply (obj_get_elem_of _ _ _ Hnodup) in Hvalue. congruence.
Qed.

(** A VNode has at most one isomorphic node: the relation leaves
    nothing of the node open. *)
Lemma Isomorphic_unique h T node :
  Isomorphic h T node → ∀ node', Isomorphic h T node' → node = node'.
Proof.
  revert T node. fix IH 3.
  intros T node [s|a fields p entries c kids el Ha Hprops Hp Hchildren Hc
                   Htag Hattrs Hkids] node' Hiso'.
  - by inversion Hiso'.
  - inversion Hiso' as [|a' fields' p' entries' c' kids' el' Ha' Hprops' Hp'
                          Hchildren' Hc' Htag' Hattrs' Hkids']; subst.
    rewrite Ha in Ha'. injection Ha' as <-.
    rewrite Hprops in Hprops'. injection Hprops' as <-.
    rewrite Hp in Hp'. injection Hp' as <-.
    rewrite Hchildren in Hchildren'. injection Hchildren' as <-.
    rewrite Hc in Hc'. injection Hc' as <-.
    assert (Hnodes : childNodes el = childNodes el').
    { clear Hc Hattrs Hattrs' Htag Htag'.
      revert Hkids'. generalize (childNodes el'). 
      induction Hkids as [|kid n kids ns Hkid _ IHkids]; intros ns' Hkids';
        inversion Hkids' as [|? n' ? ns'' Hkid' Hkids'']; subst; [done|].
      f_equal; [by apply (IH _ _ Hkid)|by apply IHkids]. }
    destruct el, el'. simpl in *. congruence.
Qed.

(** *** Claims on rendering *)

(** C5: a second [render(T, container)] leaves the container as the
    first left it and ends as the first ended (with the same fuel, and
    with any larger one when the first call was not cut short): the call
    starts by emptying the container, so whatever children the container
    had, those of an earlier call among them, have no part in the
    result, and a call that returns leaves exactly one child. *)
Theorem render_twice (fuel : nat) h T container :
  let once := render fuel h T container in
  render fuel h T once.1 = once
  ∧ (∀ prior,
       render fuel h T (mkElement (tag container) (properties container) prior)
       = once)
  ∧ (∀ fuel' : nat, (fuel ≤ fuel')%nat → once.2 ≠ OutOfFuel →
       render fuel' h T once.1 = once)
  ∧ (∀ node, renderElement fuel h T = Ok node → childNodes once.1 = [node]).
Proof.
  unfold render. split_and!.
  - by destruct (renderElement fuel h T).
  - intros prior. by destruct (renderElement fuel h T).
  - intros fuel' Hle.
    destruct (renderElement fuel h T) as [node|e|] eqn:Hfuel; [| |done];
      intros _; by rewrite (renderElement_more_fuel fuel fuel' _ _ _ Hfuel).
  - by intros node ->.
Qed.


End frame_properties.

(** * Virtual nodes: construction, failure and termination *)

Section frame_composition.
Import Js Dom Frame Tree.

Implicit Types (h : Heap) (v value type props vNode : Val) (key k : string)
  (fields entries : list (string * Val)) (children kids : list Val)
  (element el container : Element Node) (node : Node) (nodes : list Node).

(** *** Heaps that grow *)

Lemma VNodeTree_extend h h' v :
  h `prefix_of` h' → VNodeTree h v → VNodeTree h' v.
Proof.
  intros Hprefix.
  induction 1 as [s|a fields name p entries c kids Ha Htype Hprops Hp Hnodup
                    Hchildren Hc Hkids IH] using VNodeTree_induction.
  - constructor.
  - eapply VNode_element; eauto using prefix_lookup_Some.
Qed.

Lemma Isomorphic_extend h h' :
  h `prefix_of` h' → ∀ v node, Isomorphic h v node → Isomorphic h' v node.
Proof.
  intros Hprefix. fix IH 3.
  intros v node [s|a fields p entries c kids el Ha Hprops Hp Hchildren Hc
                   Htag Hattrs Hkids].
  - constructor.
  - assert (Hkids' : Forall2 (Isomorphic h') kids (childNodes el)).
    { clear Hc Hattrs Htag.
      induction Hkids as [|kid n kids ns Hkid _ IHkids]; constructor;
        [by apply IH|done]. }
    eapply Iso_element; eauto using prefix_lookup_Some.
Qed.



(** *** Objects *)

Lemma NoDup_keys_obj_set fields k value :
  NoDup (keys fields) → NoDup (keys (obj_set fields k value)).
Proof.
  intros Hnodup. destruct (decide (k ∈ keys fields)) as [Hin|Hnotin].
  - by rewrite keys_obj_set_present.
  - rewrite obj_set_fresh, keys_app by done. apply NoDup_app.
    split_and!; [done| |apply NoDup_singleton].
    intros k' Hin ->%list_elem_of_singleton. done.
Qed.

Lemma attributes_obj_set_children fields value :
  attributes (obj_set fields "children" value) = attributes fields.
Proof.
  unfold attributes. induction fields as [|[k v] fields IH]; simpl.
  - by rewrite filter_cons_False by (by intros []).
  - destruct (String.eqb_spec k "children") as [->|Hne].
    + by rewrite !filter_cons_False by (by intros []).
    + by rewrite !filter_cons_True, IH by done.
Qed.

(** The first entry of a key, and what stands before it. *)
Lemma obj_get_split fields k :
  k ∈ keys fields →
  ∃ pre post, fields = pre ++ (k, obj_get fields k) :: post ∧ k ∉ keys pre.
Proof.
  induction fields as [|[k' v'] fields IH]; [by intros ?%elem_of_nil|].
  rewrite keys_cons, elem_of_cons. simpl. intros Hin.
  destruct (String.eqb_spec k' k) as [->|Hne].
  - exists [], fields. split; [done|]. apply not_elem_of_nil.
  - destruct Hin as [->|Hin]; [done|].
    destruct (IH Hin) as (pre & post & Heq & Hpre).
    exists ((k', v') :: pre), post. split; [simpl; by rewrite <- Heq|].
    rewrite keys_cons, not_elem_of_cons. split; [congruence|done].
Qed.

(** *** Loops *)




Lemma append_rendered_eq (f : Val → Result Node) el kid :
  append_rendered f el kid = (f kid ≫= λ node, Ok (appendChild el node)).
Proof. reflexivity. Qed.


(** *** [createElement], then [render] *)

Lemma createElement_tree (name : string) props children h :
  valid h props →
  NoDup (keys (own_entries h props)) →
  Forall (VNodeTree h) children →
  VNodeTree (createElement (VStr name) props children h).2
    (createElement (VStr name) props children h).1
  ∧ h `prefix_of` (createElement (VStr name) props children h).2.
Proof.
  intros Hvalid Hnodup Hkids.
  destruct (createElement_allocates (VStr name) props children h Hvalid)
    as (h0 & Hprefix & ->).
  destruct (lookup_new_cells h0 (CArr children)
    (CObj (obj_set (own_entries h props) "children" (VRef (length h0))))
    (CObj [("type", VStr name); ("props", VRef (S (length h0)))]))
    as (Hc & Hp & Ha).
  simpl fst. simpl snd.
  assert (Hprefix' : h `prefix_of` h0 ++
    [CArr children;
     CObj (obj_set (own_entries h props) "children" (VRef (length h0)));
     CObj [("type", VStr name); ("props", VRef (S (length h0)))]]).
  { etrans; [exact Hprefix|]. by apply prefix_app_r. }
  split; [|done].
  eapply VNode_element; [exact Ha|reflexivity|reflexivity|exact Hp|..|exact Hc|].
  - by apply NoDup_keys_obj_set.
  - by rewrite obj_get_set.
  - eapply Forall_impl; [exact Hkids|]. intros kid. by apply VNodeTree_extend.
Qed.

(** The attributes argument as a list of fields: none for [undefined]
    and [null], those of the object for an object. *)
Lemma props_fields h props fields :
  match props with
  | VUndefined | VNull => fields = []
  | VRef p => h !! p = Some (CObj fields)
  | _ => False
  end →
  valid h props ∧ own_entries h props = fields.
Proof.
  destruct props as [| | | | | |p]; try done; simpl.
  intros Hp. rewrite Hp. split; [by eapply lookup_lt_Some|done].
Qed.

(** C6: [createElement(type, props, ...children)], with for [props]
    an object of fields [fields] (or [undefined], or [null]: no field),
    returns a new object [{ type, props }] whose [props] is a new object
    that holds every field of the given one with the very value it has
    there (a shallow copy: references are copied, not what they refer
    to) and, under [children], a new array of exactly the arguments
    after the second, in order, an array among them staying one
    element. The keys are those of [fields] and [children], the fields
    other than [children] in the order they have in [fields]; a
    [children] that [fields] does not have comes last. Nothing else
    happens: the heap the call was given is a prefix of the heap it
    leaves, so no cell that existed has changed. *)
Theorem createElement_shallow_union type props children h fields :
  match props with
  | VUndefined | VNull => fields = []
  | VRef p => h !! p = Some (CObj fields)
  | _ => False
  end →
  let '(vNode, h') := createElement type props children h in
  ∃ (a p c : addr) entries,
    vNode = VRef a
    ∧ h' !! a = Some (CObj [("type", type); ("props", VRef p)])
    ∧ h' !! p = Some (CObj entries)
    ∧ h' !! c = Some (CArr children)
    ∧ (∀ key, obj_get entries key
              = if String.eqb key "children" then VRef c
                else obj_get fields key)
    ∧ (∀ key, key ∈ keys entries ↔ key = "children" ∨ key ∈ keys fields)
    ∧ attributes entries = attributes fields
    ∧ ("children" ∉ keys fields → entries = fields ++ [("children", VRef c)])
    ∧ (length h ≤ c ∧ length h ≤ p ∧ length h ≤ a)%nat
    ∧ h `prefix_of` h'.
Proof.
  intros [Hvalid Hown]%props_fields.
  destruct (createElement_allocates type props children h Hvalid)
    as (h0 & Hprefix & ->).
  rewrite Hown.
  destruct (lookup_new_cells h0 (CArr children)
    (CObj (obj_set fields "children" (VRef (length h0))))
    (CObj [("type", type); ("props", VRef (S (length h0)))]))
    as (Hc & Hp & Ha).
  pose proof (prefix_length _ _ Hprefix) as Hlen.
  exists (S (S (length h0))), (S (length h0)), (length h0),
    (obj_set fields "children" (VRef (length h0))).
  split_and!; try done; try lia.
  - intros key. apply obj_get_set.
  - intros key. apply elem_of_keys_obj_set.
  - apply attributes_obj_set_children.
  - apply obj_set_fresh.
  - etrans; [exact Hprefix|]. by apply prefix_app_r.
Qed.

(** X13: called with a string for type, attributes whose keys are
    distinct and VNode trees for children, [createElement] returns a
    VNode tree; and every VNode tree there was is one still, so that
    trees can be built bottom up. *)
Theorem createElement_builds_vnode_tree (name : string) props children h :
  valid h props →
  NoDup (keys (own_entries h props)) →
  Forall (VNodeTree h) children →
  let '(vNode, h') := createElement (VStr name) props children h in
  VNodeTree h' vNode ∧ ∀ v, VNodeTree h v → VNodeTree h' v.
Proof.
  intros Hvalid Hnodup Hkids.
  destruct (createElement_tree name props children h Hvalid Hnodup Hkids)
    as [Htree Hprefix].
  destruct (createElement (VStr name) props children h) as [vNode h'].
  split; [done|]. intros v. by apply VNodeTree_extend.
Qed.


Lemma renderElement_returns_unique h v node node' :
  renderElement_returns h v node → renderElement_returns h v node' → node = node'.
Proof.
  intros (fuel & Hfuel) (fuel' & Hfuel').
  specialize (Hfuel (fuel `max` fuel')%nat ltac:(lia)).
  specialize (Hfuel' (fuel `max` fuel')%nat ltac:(lia)).
  congruence.
Qed.

(** X20: a call of [createElement] changes nothing for the vNodes
    there were: a VNode tree renders after the call to the node it
    rendered to before. *)
Theorem createElement_keeps_rendering type props children h v node :
  valid h props →
  VNodeTree h v →
  renderElement_returns h v node →
  let '(vNode, h') := createElement type props children h in
  renderElement_returns h' v node.
Proof.
  intros Hvalid Hv Hret.
  destruct (createElement_allocates type props children h Hvalid)
    as (h0 & Hprefix & ->).
  set (h' := h0 ++ _).
  assert (Hprefix' : h `prefix_of` h').
  { etrans; [exact Hprefix|]. by apply prefix_app_r. }
  destruct (renderElement_isomorphic h v Hv) as (node0 & Hiso0 & Hret0).
  destruct (renderElement_isomorphic h' v (VNodeTree_extend h h' v Hprefix' Hv))
    as (node' & Hiso' & Hret').
  rewrite (renderElement_returns_unique h v node node0 Hret Hret0).
  by rewrite (Isomorphic_unique h' v node0
                (Isomorphic_extend h h' Hprefix' v node0 Hiso0) node' Hiso').
Qed.

(** *** Failures *)


(** X16: a value that is neither a string nor an object nor [null] nor
    [undefined] (a boolean, a number, a function, an array) renders to
    an element made by [document.createElement(undefined)], with no
    property and no child: an array given as one child is not spread
    into children, and its elements are not rendered. *)
Theorem renderElement_non_vnode (fuel : nat) h v :
  match v with
  | VBool _ | VNum _ | VFun _ => True
  | VRef a => ∃ elems, h !! a = Some (CArr elems)
  | _ => False
  end →
  renderElement (S fuel) h v = Ok (ElementNode (mkElement VUndefined [] [])).
Proof.
  destruct v as [| | | | | |a]; try done.
  intros (elems & Ha). rewrite renderElement_unfold. unfold member.
  by rewrite Ha.
Qed.


(** *** Termination *)

Lemma forEach_terminates {A B : Type} (xs : list A) (body : B → A → Result B) acc :
  (∀ acc x, x ∈ xs → body acc x ≠ OutOfFuel) → forEach xs body acc ≠ OutOfFuel.
Proof.
  revert acc. induction xs as [|x xs IH]; intros acc Hbody; [done|].
  rewrite forEach_cons.
  destruct (body acc x) as [acc'| |] eqn:Hx; simpl; [|done|].
  - apply IH. intros acc'' y Hy. apply Hbody. by right.
  - by destruct (Hbody acc x ltac:(by left)).
Qed.

Lemma below_mono (n m : nat) v : below n v → (n ≤ m)%nat → below m v.
Proof. destruct v; try done. simpl. lia. Qed.

Lemma obj_get_values fields k :
  obj_get fields k = VUndefined ∨ obj_get fields k ∈ fields.*2.
Proof.
  induction fields as [|[k' v'] fields IH]; [by left|]. simpl.
  destruct (String.eqb k' k).
  - right. by left.
  - destruct IH as [IH|IH]; [by left|]. right. by right.
Qed.

Lemma elem_of_indexed k v elems : (k, v) ∈ indexed elems → v ∈ elems.
Proof.
  intros (i & y & [= _ ->] & Hy)%elem_of_lookup_imap.
  by eapply list_elem_of_lookup_2.
Qed.

Lemma elem_of_chars v s : v ∈ chars s → ∃ s', v = VStr s'.
Proof.
  induction s as [|c s IH]; simpl; [by intros ?%elem_of_nil|].
  rewrite elem_of_cons. intros [->|Hin]; [by eexists|by apply IH].
Qed.

(** Where the values of the entries of a value come from. *)
Lemma own_entries_values h v k value :
  (k, value) ∈ own_entries h v →
  (∃ s, value = VStr s)
  ∨ ∃ (p : addr) cell, v = VRef p ∧ h !! p = Some cell ∧ value ∈ cell_values cell.
Proof.
  destruct v as [| | | |s|f|p]; simpl; try by intros ?%elem_of_nil.
  - intros Hin%elem_of_indexed. left. by eapply elem_of_chars.
  - destruct (h !! p) as [[fields|elems]|] eqn:Hp; [..|by intros ?%elem_of_nil].
    + intros Hin. right. exists p, (CObj fields). split_and!; [done..|].
      simpl. apply list_elem_of_fmap. by exists (k, value).
    + intros Hin%elem_of_indexed. right. by exists p, (CArr elems).
Qed.

Lemma bind_Ok_terminates {A B : Type} (m : Result A) (g : A → B) :
  m ≠ OutOfFuel → m ≫= (λ a, Ok (g a)) ≠ OutOfFuel.
Proof. by destruct m. Qed.

Lemma renderElement_bounded h :
  backward h →
  ∀ (fuel : nat) v, below fuel v → (0 < fuel)%nat →
    renderElement fuel h v ≠ OutOfFuel.
Proof.
  intros Hback. induction fuel as [|fuel IH]; intros v Hv Hpos; [lia|].
  rewrite renderElement_unfold.
  destruct v as [| | | | | |a]; try done.
  unfold member. destruct (h !! a) as [[fields|elems]|] eqn:Ha; [|done..].
  rewrite !bind_Ok. apply bind_Ok_terminates, forEach_terminates.
  intros el [key value] Hin. simpl.
  destruct (String.eqb key "children"); [|done].
  destruct (truthy (obj_get fields "props")); [|by apply elem_of_nil in Hin].
  unfold forEach_receiver.
  destruct value as [| | | | | |c]; try done.
  destruct (h !! c) as [[|kids]|] eqn:Hc; try done.
  rewrite bind_Ok.
  apply own_entries_values in Hin as [(s & [=])|(p & cell & Hprops & Hp & Hin)].
  assert (Hpa : (p < a)%nat).
  { destruct (obj_get_values fields "props") as [Hundef|Hval]; [congruence|].
    rewrite Hprops in Hval.
    pose proof (Hback a (CObj fields) Ha) as Hcell.
    rewrite Forall_forall in Hcell. apply (Hcell _ Hval). }
  assert (Hcp : (c < p)%nat).
  { pose proof (Hback p cell Hp) as Hcell.
    rewrite Forall_forall in Hcell. apply (Hcell _ Hin). }
  simpl in Hv.
  apply forEach_terminates. intros el' kid Hkid.
  rewrite append_rendered_eq. apply bind_Ok_terminates, IH; [|lia].
  pose proof (Hback c (CArr kids) Hc) as Hcell.
  rewrite Forall_forall in Hcell.
  apply (below_mono c); [by apply Hcell|lia].
Qed.

Lemma backward_alloc h c :
  backward h → Forall (below (length h)) (cell_values c) → backward (h ++ [c]).
Proof.
  intros Hback Hc a c' [Hold|[Hle Hnew]]%lookup_app_Some.
  - by apply Hback.
  - destruct (a - length h)%nat as [|n] eqn:Hn; [|done].
    injection Hnew as <-.
    replace a with (length h) by lia. done.
Qed.

Lemma values_obj_set (P : Val → Prop) fields k value :
  Forall P fields.*2 → P value → Forall P (obj_set fields k value).*2.
Proof.
  intros Hfields Hvalue.
  induction fields as [|[k' v'] fields IH]; simpl.
  - by constructor.
  - apply Forall_cons in Hfields as [Hv' Hfields].
    destruct (String.eqb k' k); simpl; constructor; auto.
Qed.

Lemma own_entries_below h props :
  backward h → valid h props →
  Forall (below (length h)) (own_entries h props).*2.
Proof.
  intros Hback Hvalid. apply Forall_forall. intros value Hin.
  apply list_elem_of_fmap in Hin as ([k value'] & -> & Hin). simpl.
  apply own_entries_values in Hin as [(s & ->)|(p & cell & -> & Hp & Hin)];
    [done|].
  pose proof (Hback p cell Hp) as Hcell. rewrite Forall_forall in Hcell.
  apply (below_mono p); [by apply Hcell|]. simpl in Hvalid. lia.
Qed.

(** X19: [createElement] keeps a heap one whose cells refer to earlier
    cells only, when the values it is given are values of the heap: the
    node, its properties and its children array refer to what existed
    before them. So every vNode built by nested [createElement] calls is
    one on which [renderElement] terminates. *)
Theorem createElement_backward type props children h :
  backward h →
  valid h type → valid h props → Forall (valid h) children →
  let '(vNode, h') := createElement type props children h in
  backward h' ∧ valid h' vNode ∧ ∀ v, valid h v → valid h' v.
Proof.
  intros Hback Htype Hprops Hchildren.
  assert (Hgen : ∀ props' h0,
    backward h0 → (length h ≤ length h0)%nat → valid h0 props' →
    Forall (below (length h0)) (own_entries h0 props').*2 →
    let '(vNode, h') :=
      (let '(children', h1) := alloc (CArr children) h0 in
       let '(props'', h2) :=
         alloc (CObj (obj_set (own_entries h1 props') "children" children')) h1 in
       alloc (CObj [("type", type); ("props", props'')]) h2) in
    backward h' ∧ valid h' vNode ∧ ∀ v, valid h v → valid h' v).
  { intros props' h0 Hback0 Hlen Hprops' Hentries. unfold alloc.
    rewrite own_entries_alloc by done.
    split_and!.
    - apply backward_alloc; [apply backward_alloc; [apply backward_alloc|]|].
      + done.
      + simpl. eapply Forall_impl; [exact Hchildren|].
        intros v Hv. apply (below_mono (length h)); [done|lia].
      + simpl. apply values_obj_set.
        * eapply Forall_impl; [exact Hentries|].
          intros v Hv. eapply below_mono; [done|]. rewrite length_app. lia.
        * simpl. rewrite length_app. simpl. lia.
      + simpl. repeat constructor.
        * apply (below_mono (length h)); [done|]. rewrite !length_app. lia.
        * simpl. rewrite !length_app. simpl. lia.
    - simpl. rewrite !length_app. simpl. lia.
    - intros v Hv. apply (below_mono (length h)); [done|].
      rewrite !length_app. lia. }
  unfold createElement.
  destruct props; try (apply Hgen; [done|lia|done|by apply own_entries_below]).
  unfold alloc at 1. apply Hgen.
  - apply backward_alloc; [done|by constructor].
  - rewrite length_app. lia.
  - simpl. rewrite length_app. simpl. lia.
  - simpl. rewrite lookup_alloc_new. by constructor.
Qed.

End frame_composition.

(** * Rendering on a host that may refuse *)

Section host_properties.
Import Js Dom Frame Tree.

#[local] Existing Instances General.Outcome_ret General.Outcome_bind.

Implicit Types (host : General.Host) (h : Heap)
  (v value type props vNode T : Val) (key k : string)
  (fields entries : list (string * Val)) (children kids : list Val)
  (element el container : Element Node) (node : Node) (nodes : list Node).

(** *** Outcomes *)

Lemma lift_bind {A B : Type} (m : Result A) (k : A → Result B) :
  General.lift (m ≫= k) = General.lift m ≫= (λ a, General.lift (k a)).
Proof. by destruct m. Qed.

Lemma bind_Returns {A B : Type} (a : A) (k : A → General.Outcome B) :
  (General.Returns a ≫= k) = k a.
Proof. reflexivity. Qed.

Lemma host_forEach_cons {A B : Type} (x : A) xs
    (body : B → A → General.Outcome B) acc :
  General.forEach (x :: xs) body acc = (body acc x ≫= General.forEach xs body).
Proof. reflexivity. Qed.

Lemma host_forEach_app {A B : Type} (xs ys : list A)
    (body : B → A → General.Outcome B) acc :
  General.forEach (xs ++ ys) body acc
  = General.forEach xs body acc ≫= General.forEach ys body.
Proof.
  revert acc. induction xs as [|x xs IH]; intros acc; simpl; [done|].
  destruct (body acc x) as [acc'| | |]; simpl; [apply IH|done..].
Qed.

Lemma host_append_rendered_eq (f : Val → General.Outcome Node) el kid :
  General.append_rendered f el kid
  = (f kid ≫= λ node, General.Returns (appendChild el node)).
Proof. reflexivity. Qed.

Lemma host_renderElement_unfold host (fuel : nat) h vNode :
  General.renderElement host (S fuel) h vNode
  = match vNode with
    | VStr s => General.Returns (createTextNode s)
    | _ =>
        type ← General.lift (member h vNode "type");
        element ← General.reply (General.create host type);
        props ← General.lift (member h vNode "props");
        element ← General.forEach
                    (if truthy props then own_entries h props else [])
                    (General.assign_entry host
                       (General.renderElement host fuel h) h)
                    element;
        General.Returns (ElementNode element)
    end.
Proof. by destruct vNode. Qed.

(** The rendering of an object, its two reads done. *)
Lemma host_renderElement_object host (fuel : nat) h (a : addr) fields :
  h !! a = Some (CObj fields) →
  General.renderElement host (S fuel) h (VRef a)
  = (element ← General.reply (General.create host (obj_get fields "type"));
     element ← General.forEach
                 (if truthy (obj_get fields "props")
                  then own_entries h (obj_get fields "props") else [])
                 (General.assign_entry host
                    (General.renderElement host fuel h) h)
                 element;
     General.Returns (ElementNode element)).
Proof.
  intros Ha. rewrite host_renderElement_unfold. unfold member.
  by rewrite Ha.
Qed.

(** *** The host of [Dom] among the hosts *)

Lemma forEach_agrees {A B : Type} (xs : list A)
    (body : B → A → General.Outcome B) (body' : B → A → Result B) :
  (∀ acc x, x ∈ xs → body acc x = General.lift (body' acc x)) →
  ∀ acc, General.forEach xs body acc = General.lift (forEach xs body' acc).
Proof.
  induction xs as [|x xs IH]; intros Hbody acc; [done|].
  rewrite host_forEach_cons, forEach_cons, lift_bind.
  rewrite Hbody by (by left).
  destruct (body' acc x) as [acc'| |]; simpl; [|done..].
  apply IH. intros acc'' y Hy. apply Hbody. by right.
Qed.

Lemma append_rendered_agrees (f : Val → General.Outcome Node)
    (g : Val → Result Node) el kid :
  f kid = General.lift (g kid) →
  General.append_rendered f el kid = General.lift (append_rendered g el kid).
Proof.
  intros Hkid. unfold General.append_rendered, append_rendered.
  rewrite Hkid. by destruct (g kid).
Qed.

Lemma forEach_receiver_agrees h value :
  General.no_forEach h →
  General.forEach_receiver h value = General.lift (forEach_receiver h value).
Proof.
  intros Hno. unfold General.forEach_receiver, forEach_receiver.
  destruct value as [| | | | | |a]; try done.
  destruct (h !! a) as [[fields|elems]|] eqn:Ha; try done.
  destruct (obj_get fields "forEach") as [| | | | |f|] eqn:Hf; try done.
  by destruct (Hno a fields f Ha).
Qed.

(** In a heap where no object has a function under [forEach], the
    renderer of [Frame] is the renderer on the host that accepts
    everything. *)
Lemma renderElement_plain h (fuel : nat) v :
  General.no_forEach h →
  General.renderElement General.plain fuel h v
  = General.lift (renderElement fuel h v).
Proof.
  intros Hno. revert v. induction fuel as [|fuel IH]; intros v; [done|].
  rewrite host_renderElement_unfold, renderElement_unfold.
  assert (Hloop : ∀ entries el,
    General.forEach entries
      (General.assign_entry General.plain
         (General.renderElement General.plain fuel h) h) el
    = General.lift (forEach entries (assign_entry (renderElement fuel h) h) el)).
  { intros entries el. apply forEach_agrees. intros acc [key value] _. simpl.
    destruct (String.eqb key "children"); [|done].
    rewrite lift_bind, forEach_receiver_agrees by done.
    destruct (forEach_receiver h value) as [kids| |]; simpl; [|done..].
    apply forEach_agrees. intros acc' kid _. apply append_rendered_agrees, IH. }
  destruct v as [| | | | | |a]; try done.
  unfold member. destruct (h !! a) as [[fields|elems]|]; simpl; try done.
  by rewrite Hloop, lift_bind.
Qed.

(** *** Trees the host accepts *)



Lemma VNodeTree_accepted h v : VNodeTree h v → General.Accepted General.plain h v.
Proof.
  induction 1 as [s|a fields name p entries c kids Ha Htype Hprops Hp Hnodup
                    Hchildren Hc Hkids IH] using VNodeTree_induction.
  - constructor.
  - eapply General.Accepted_element; try done.
    apply Forall_forall. by intros key _ el value.
Qed.





(** *** Claims on rendering *)



(** *** Failures *)

(** Entries that are not [children], on a host that accepts their
    assignment, are assigned, and nothing else happens. *)
Lemma host_forEach_assign_only host (f : Val → General.Outcome Node) h entries el :
  "children" ∉ keys entries →
  Forall (General.takes host) (keys entries) →
  ∃ el', General.forEach entries (General.assign_entry host f h) el
         = General.Returns el'.
Proof.
  revert el. induction entries as [|[k v] entries IH]; intros el.
  - intros _ _. by exists el.
  - rewrite keys_cons, not_elem_of_cons, Forall_cons.
    intros [Hne Hnotin] [Hk Htakes].
    rewrite host_forEach_cons. simpl.
    destruct (String.eqb_spec k "children"); [congruence|].
    destruct (Hk el v) as (el1 & ->). simpl. by apply IH.
Qed.

(** The outer loop up to the entry [children]. *)
Lemma host_forEach_until_children host (f : Val → General.Outcome Node) h
    entries el :
  "children" ∈ keys entries →
  (∀ key, key ∈ keys entries → key ≠ "children" → General.takes host key) →
  ∃ el' post,
    General.forEach entries (General.assign_entry host f h) el
    = (children ← General.forEach_receiver h (obj_get entries "children");
       General.forEach children (General.append_rendered f) el')
      ≫= General.forEach post (General.assign_entry host f h).
Proof.
  intros Hin Htakes.
  destruct (obj_get_split entries "children" Hin) as (pre & post & Heq & Hpre).
  destruct (host_forEach_assign_only host f h pre el Hpre) as (el' & Hel').
  { apply Forall_forall. intros key Hkey. apply Htakes; [|by intros ->].
    rewrite Heq, keys_app. apply elem_of_app. by left. }
  exists el', post. rewrite Heq at 1.
  rewrite host_forEach_app, Hel', bind_Returns, host_forEach_cons. simpl. done.
Qed.

(** X14: when [props.children] of an element vNode is neither an array
    nor an object that has a function under [forEach], on a host that
    makes the element and accepts the assignment of the other
    properties, [renderElement] throws a [TypeError] ([value.forEach]
    is no function), whatever else the vNode holds; [render] has by
    then emptied the container and leaves it empty. *)
Theorem renderElement_children_not_array host (fuel : nat) h (a p : addr)
    fields entries el :
  h !! a = Some (CObj fields) →
  obj_get fields "props" = VRef p →
  h !! p = Some (CObj entries) →
  "children" ∈ keys entries →
  General.create host (obj_get fields "type") = General.Accept el →
  (∀ key, key ∈ keys entries → key ≠ "children" → General.takes host key) →
  match obj_get entries "children" with
  | VRef c =>
      match h !! c with
      | Some (CArr elems) => False
      | Some (CObj methods) => ∀ f, obj_get methods "forEach" ≠ VFun f
      | None => True
      end
  | _ => True
  end →
  General.renderElement host (S fuel) h (VRef a)
  = General.Throws General.JsTypeError
  ∧ ∀ container,
      General.render host (S fuel) h (VRef a) container
      = (mkElement (tag container) (properties container) [],
         General.Throws General.JsTypeError).
Proof.
  intros Ha Hprops Hp Hin Hcreate Htakes Hnot.
  assert (Hthrow : General.renderElement host (S fuel) h (VRef a)
                   = General.Throws General.JsTypeError).
  { rewrite (host_renderElement_object _ _ _ _ _ Ha), Hcreate, Hprops.
    simpl truthy. unfold own_entries. rewrite Hp.
    cbn [General.reply]. rewrite bind_Returns.
    destruct (host_forEach_until_children host
                (General.renderElement host fuel h) h entries el Hin Htakes)
      as (el' & post & ->).
    assert (General.forEach_receiver h (obj_get entries "children")
            = General.Throws General.JsTypeError) as ->; [|done].
    unfold General.forEach_receiver.
    destruct (obj_get entries "children") as [| | | | | |c]; try done.
    destruct (h !! c) as [[methods|elems]|] eqn:Hc; try done.
    destruct (obj_get methods "forEach") as [| | | | |f|] eqn:Hf; try done.
    by destruct (Hnot f). }
  split; [done|]. intros container. unfold General.render. by rewrite Hthrow.
Qed.

(** *** Termination *)

Lemma host_forEach_more_fuel {A B : Type}
    (body body' : B → A → General.Outcome B) xs :
  (∀ acc x r, body acc x = r → r ≠ General.Unfinished → body' acc x = r) →
  ∀ acc r, General.forEach xs body acc = r → r ≠ General.Unfinished →
           General.forEach xs body' acc = r.
Proof.
  intros Hbody. induction xs as [|x xs IH]; intros acc r; [done|].
  rewrite !host_forEach_cons.
  destruct (body acc x) as [acc'|e|g|] eqn:Hx; simpl; intros <- Hr.
  - rewrite (Hbody _ _ _ Hx) by done. simpl. by apply IH.
  - by rewrite (Hbody _ _ _ Hx).
  - by rewrite (Hbody _ _ _ Hx).
  - done.
Qed.

Lemma host_append_rendered_more_fuel (f f' : Val → General.Outcome Node) :
  (∀ v r, f v = r → r ≠ General.Unfinished → f' v = r) →
  ∀ el child r, General.append_rendered f el child = r →
                r ≠ General.Unfinished →
                General.append_rendered f' el child = r.
Proof.
  intros Hf el child r. unfold General.append_rendered.
  destruct (f child) as [node|e|g|] eqn:Hchild; simpl; intros <- Hr;
    [by rewrite (Hf _ _ Hchild)..|done].
Qed.

Lemma host_assign_entry_more_fuel host (f f' : Val → General.Outcome Node) h :
  (∀ v r, f v = r → r ≠ General.Unfinished → f' v = r) →
  ∀ el entry r, General.assign_entry host f h el entry = r →
                r ≠ General.Unfinished →
                General.assign_entry host f' h el entry = r.
Proof.
  intros Hf el [key value] r. simpl.
  destruct (String.eqb key "children"); [|done].
  destruct (General.forEach_receiver h value) as [children| | |]; simpl;
    [|done..].
  apply host_forEach_more_fuel. by apply host_append_rendered_more_fuel.
Qed.

Lemma host_bind_more_fuel {A B : Type} (m : General.Outcome A)
    (k k' : A → General.Outcome B) :
  (∀ a r, k a = r → r ≠ General.Unfinished → k' a = r) →
  ∀ r, m ≫= k = r → r ≠ General.Unfinished → m ≫= k' = r.
Proof. intros Hk r. destruct m; simpl; [apply Hk|done..]. Qed.

Lemma host_bind_more_fuel_l {A B : Type} (m m' : General.Outcome A)
    (k : A → General.Outcome B) :
  (∀ r, m = r → r ≠ General.Unfinished → m' = r) →
  ∀ r, m ≫= k = r → r ≠ General.Unfinished → m' ≫= k = r.
Proof.
  intros Hm r. destruct m as [a|e|g|] eqn:Heq; simpl; intros <- Hr;
    [by rewrite (Hm _ eq_refl)..|done].
Qed.

(** More fuel changes no outcome. *)
Lemma host_renderElement_more_fuel host (fuel fuel' : nat) h vNode
    (r : General.Outcome Node) :
  General.renderElement host fuel h vNode = r → r ≠ General.Unfinished →
  (fuel ≤ fuel')%nat →
  General.renderElement host fuel' h vNode = r.
Proof.
  revert fuel' vNode r.
  induction fuel as [|fuel IH]; intros fuel' vNode r; [by intros <-|].
  intros Hr Hne Hle. destruct fuel' as [|fuel']; [lia|].
  rewrite host_renderElement_unfold in Hr |- *.
  assert (Hstep : ∀ v r', General.renderElement host fuel h v = r' →
                          r' ≠ General.Unfinished →
                          General.renderElement host fuel' h v = r').
  { intros v r' Hv Hr'. apply (IH fuel' v r' Hv Hr'). lia. }
  revert r Hr Hne.
  destruct vNode; try done;
    (apply host_bind_more_fuel; intros type;
     apply host_bind_more_fuel; intros element;
     apply host_bind_more_fuel; intros props;
     apply host_bind_more_fuel_l;
     apply host_forEach_more_fuel; by apply host_assign_entry_more_fuel).
Qed.

Lemma host_forEach_terminates {A B : Type} (xs : list A)
    (body : B → A → General.Outcome B) acc :
  (∀ acc x, x ∈ xs → body acc x ≠ General.Unfinished) →
  General.forEach xs body acc ≠ General.Unfinished.
Proof.
  revert acc. induction xs as [|x xs IH]; intros acc Hbody; [done|].
  rewrite host_forEach_cons.
  destruct (body acc x) as [acc'|e|g|] eqn:Hx; simpl; [|done|done|].
  - apply IH. intros acc'' y Hy. apply Hbody. by right.
  - by destruct (Hbody acc x ltac:(by left)).
Qed.

Lemma bind_Returns_terminates {A B : Type} (m : General.Outcome A) (g : A → B) :
  m ≠ General.Unfinished → m ≫= (λ a, General.Returns (g a)) ≠ General.Unfinished.
Proof. by destruct m. Qed.

Lemma host_renderElement_bounded host h :
  backward h →
  ∀ (fuel : nat) v, below fuel v → (0 < fuel)%nat →
    General.renderElement host fuel h v ≠ General.Unfinished.
Proof.
  intros Hback. induction fuel as [|fuel IH]; intros v Hv Hpos; [lia|].
  rewrite host_renderElement_unfold.
  assert (Hloop : ∀ (a : addr) fields el,
    h !! a = Some (CObj fields) → (a < S fuel)%nat →
    General.forEach
      (if truthy (obj_get fields "props")
       then own_entries h (obj_get fields "props") else [])
      (General.assign_entry host (General.renderElement host fuel h) h) el
    ≠ General.Unfinished).
  { intros a fields el Ha Hlt. apply host_forEach_terminates.
    intros el' [key value] Hin. simpl.
    destruct (String.eqb key "children");
      [|by destruct (General.assign host el' key value)].
    destruct (truthy (obj_get fields "props")); [|by apply elem_of_nil in Hin].
    unfold General.forEach_receiver.
    destruct value as [| | | | | |c]; try done.
    destruct (h !! c) as [[methods|kids]|] eqn:Hc; try done.
    { by destruct (obj_get methods "forEach"). }
    rewrite bind_Returns.
    apply own_entries_values in Hin as [(s & [=])|(p & cell & Hprops & Hp & Hin)].
    assert (Hpa : (p < a)%nat).
    { destruct (obj_get_values fields "props") as [Hundef|Hval]; [congruence|].
      rewrite Hprops in Hval.
      pose proof (Hback a (CObj fields) Ha) as Hcell.
      rewrite Forall_forall in Hcell. apply (Hcell _ Hval). }
    assert (Hcp : (c < p)%nat).
    { pose proof (Hback p cell Hp) as Hcell.
      rewrite Forall_forall in Hcell. apply (Hcell _ Hin). }
    apply host_forEach_terminates. intros el'' kid Hkid.
    rewrite host_append_rendered_eq. apply bind_Returns_terminates, IH; [|lia].
    pose proof (Hback c (CArr kids) Hc) as Hcell.
    rewrite Forall_forall in Hcell.
    apply (below_mono c); [by apply Hcell|lia]. }
  destruct v as [| | | | | |a]; try done.
  - simpl. by destruct (General.create host VUndefined).
  - simpl. by destruct (General.create host VUndefined).
  - simpl. by destruct (General.create host VUndefined).
  - simpl in Hv. unfold member.
    destruct (h !! a) as [[fields|elems]|] eqn:Ha; simpl.
    + destruct (General.create host (obj_get fields "type")) as [el|e];
        simpl; [|done].
      by apply bind_Returns_terminates, (Hloop a).
    + by destruct (General.create host VUndefined).
    + by destruct (General.create host VUndefined).
Qed.

(** X18: in a heap whose cells refer to earlier cells only,
    [renderElement] needs no depth of recursion above the number of
    cells, on any host and any value: with that depth it returns a
    node, throws, or calls the [forEach] of an object that is no array,
    and more depth changes nothing. *)
Theorem renderElement_terminates host h v :
  backward h → valid h v →
  ∃ result : General.Outcome Node,
    result ≠ General.Unfinished
    ∧ ∀ fuel : nat, (length h < fuel)%nat →
        General.renderElement host fuel h v = result.
Proof.
  intros Hback Hvalid.
  assert (Hne : General.renderElement host (S (length h)) h v
                ≠ General.Unfinished).
  { apply host_renderElement_bounded; [done| |lia].
    apply (below_mono (length h)); [done|lia]. }
  exists (General.renderElement host (S (length h)) h v). split; [done|].
  intros fuel Hle.
  by apply (host_renderElement_more_fuel host (S (length h)) fuel).
Qed.

End host_properties.

(** * The examples *)

Section examples.
Import Js Dom Frame Tree Examples.

#[local] Existing Instances General.Outcome_ret General.Outcome_bind.

(** The scenario of the specification: a [div] with [id] set to ["a"]
    that holds the text ["hello"] and then a [span] holding ["world"]. *)
Example scenario_renders :
  renderElement 3 scenario.2 scenario.1
  = Ok (ElementNode
          {| tag := VStr "div";
             properties := [("id", VStr "a")];
             childNodes :=
               [TextNode "hello";
                ElementNode {| tag := VStr "span";
                               properties := [];
                               childNodes := [TextNode "world"] |}] |}).
Proof. reflexivity. Qed.

(** The counter of the specification: [0] at first, [1] after one
    [INC], [2] after a second. *)
Example counter_counts :
  let st0 : @Store.Store (option Z) Empty_set nat := Store.createStore None counter in
  let st1 := (Store.dispatch st0 INC).1 in
  let st2 := (Store.dispatch st1 INC).1 in
  Store.getState st0 = Some 0%Z
  ∧ Store.getState st1 = Some 1%Z
  ∧ Store.getState st2 = Some 2%Z.
Proof. by repeat split. Qed.

(** With the closure of [src/frame.js], listener [7] is still called
    after its subscription was cancelled. *)
Example unsubscribe_frame_example :
  let st0 : @Store.Store (option Z) Empty_set nat := Store.createStore None counter in
  let '(st1, u) := Store.subscribe st0 7%nat in
  let '(st2, removed) := Store.unsubscribe st1 u in
  removed = []
  ∧ Store.listeners st2 = [7%nat]
  ∧ Store.calls_to 7%nat (Store.dispatch st2 INC).2 = 1%nat.
Proof. by repeat split. Qed.

(** With the closure of the README, a second invocation removes the
    second entry of a listener that was subscribed twice. *)
Example unsubscribe_readme_twice_example :
  let st0 : @Store.Store (option Z) Empty_set nat := Store.createStore None counter in
  let '(st1, u) := Store.subscribe st0 7%nat in
  let '(st2, u') := Store.subscribe st1 7%nat in
  let st3 := Store.unsubscribe_readme st2 u in
  let st4 := Store.unsubscribe_readme st3 u in
  Store.listeners st3 = [7%nat] ∧ Store.listeners st4 = [].
Proof. by repeat split. Qed.



(** An object that has a function under [forEach] for children: the
    renderer calls it. *)
Example renderElement_calls_forEach :
  General.renderElement General.plain 1 forEach_carrier (VRef 0)
  = General.Calls 0.
Proof. reflexivity. Qed.

(** [createElement_shallow_union] on a second [div] made with the
    attributes object of the scenario, in the heap the scenario left. *)
Lemma createElement_shallow_union_witness :
  let '(vNode, h') :=
    createElement (VStr "div") (VRef 0) [VStr "hello"; VRef 4] scenario.2 in
  ∃ (a p c : addr) entries,
    vNode = VRef a
    ∧ h' !! a = Some (CObj [("type", VStr "div"); ("props", VRef p)])
    ∧ h' !! p = Some (CObj entries)
    ∧ h' !! c = Some (CArr [VStr "hello"; VRef 4])
    ∧ (∀ key, obj_get entries key
              = if String.eqb key "children" then VRef c
                else obj_get [("id", VStr "a")] key)
    ∧ (∀ key, key ∈ keys entries ↔ key = "children" ∨ key ∈ ["id"])
    ∧ attributes entries = [("id", VStr "a")]
    ∧ ("children" ∉ ["id"]
       → entries = [("id", VStr "a"); ("children", VRef c)])
    ∧ (length scenario.2 ≤ c ∧ length scenario.2 ≤ p ∧ length scenario.2 ≤ a)%nat
    ∧ scenario.2 `prefix_of` h'.
Proof.
  refine (createElement_shallow_union (VStr "div") (VRef 0)
            [VStr "hello"; VRef 4] scenario.2 [("id", VStr "a")] _).
  reflexivity.
Defined.

(** [createElement_children_overwritten] on
    [createElement('div', { children: 'mine', id: 'a' }, 'hello')]. *)
Lemma createElement_children_overwritten_witness :
  let '(vNode, h') := createElement (VStr "div") (VRef 0) [VStr "hello"] reserved in
  h' !! 0%nat = Some (CObj [("children", VStr "mine"); ("id", VStr "a")])
  ∧ ∃ (a q c : addr) entries',
      vNode = VRef a
      ∧ h' !! a = Some (CObj [("type", VStr "div"); ("props", VRef q)])
      ∧ q ≠ 0%nat
      ∧ h' !! q = Some (CObj entries')
      ∧ keys entries' = ["children"; "id"]
      ∧ obj_get entries' "children" = VRef c
      ∧ h' !! c = Some (CArr [VStr "hello"])
      ∧ (length reserved ≤ c)%nat
      ∧ ∀ key, key ≠ "children" →
          obj_get entries' key
          = obj_get [("children", VStr "mine"); ("id", VStr "a")] key.
Proof.
  apply (createElement_children_overwritten (VStr "div") 0
           [("children", VStr "mine"); ("id", VStr "a")] [VStr "hello"] reserved).
  - reflexivity.
  - apply (bool_decide_unpack _). vm_compute. exact I.
Defined.


(** [unsubscribe_readme_removes] and [unsubscribe_readme_absent] on a
    new store of the counter and listener [7]. *)
Lemma unsubscribe_readme_removes_witness :
  let st0 : @Store.Store (option Z) Empty_set nat := Store.createStore None counter in
  let '(st1, u) := Store.subscribe st0 7%nat in
  let st2 := Store.unsubscribe_readme st1 u in
  st2 = st0 ∧ Store.calls_to 7%nat (Store.dispatch st2 INC).2 = 0%nat.
Proof.
  apply (unsubscribe_readme_removes (Store.createStore None counter) 7%nat INC).
  apply not_elem_of_nil.
Defined.

Lemma unsubscribe_readme_absent_witness :
  let st0 : @Store.Store (option Z) Empty_set nat := Store.createStore None counter in
  Store.unsubscribe_readme st0 (Store.Unsub 7%nat) = st0.
Proof.
  apply (unsubscribe_readme_absent (Store.createStore None counter) 7%nat).
  apply not_elem_of_nil.
Defined.

(** [unsubscribe_readme_first_entry] and [unsubscribe_readme_twice] on
    stores whose listeners are [3; 7; 5; 7] and [3; 7; 5]. *)
Lemma unsubscribe_readme_first_entry_witness :
  let st : @Store.Store (option Z) Empty_set nat :=
    Store.mkStore counter None [3; 7; 5; 7]%nat in
  let st' := Store.unsubscribe_readme st (Store.Unsub 7%nat) in
  Store.listeners st' = [3; 5; 7]%nat
  ∧ Store.state st' = None
  ∧ Store.reducer st' = counter
  ∧ Store.occurrences 7%nat (Store.listeners st') = 1%nat.
Proof.
  refine (unsubscribe_readme_first_entry
            (Store.mkStore counter None [3; 7; 5; 7]%nat) 7%nat [3%nat] [5; 7]%nat
            _ _).
  - reflexivity.
  - apply (bool_decide_unpack _). vm_compute. exact I.
Defined.

Lemma unsubscribe_readme_twice_witness :
  let st : @Store.Store (option Z) Empty_set nat :=
    Store.mkStore counter None [3; 7; 5]%nat in
  let st1 := Store.unsubscribe_readme st (Store.Unsub 7%nat) in
  Store.unsubscribe_readme st1 (Store.Unsub 7%nat) = st1.
Proof.
  apply (unsubscribe_readme_twice (Store.mkStore counter None [3; 7; 5]%nat) 7%nat).
  vm_compute. lia.
Defined.


(** [dispatch_after_run_notifies] on a new store of the counter, with
    listeners that return at once. *)
Lemma dispatch_after_run_notifies_witness :
  let code : nat → @Reentrant.Script (option Z) Empty_set nat :=
    λ _, Reentrant.Return in
  let st : @Store.Store (option Z) Empty_set nat := Store.createStore None counter in
  let ops := [Store.OpSubscribe 3%nat; Store.OpDispatch INC;
              Store.OpUnsubscribe (Store.Unsub 3%nat); Store.OpSubscribe 5%nat] in
  (Reentrant.run 1 code st (ops ++ [Store.OpDispatch INC])).2
  = Reentrant.Completed
  ∧ (Reentrant.run 1 code st (ops ++ [Store.OpDispatch INC])).1.2
    = (Reentrant.run 1 code st ops).1.2
      ++ [Store.Call 3%nat [] (Some 2%Z); Store.Call 5%nat [] (Some 2%Z)].
Proof.
  refine (dispatch_after_run_notifies 0 (λ _, Reentrant.Return)
            (Store.createStore None counter)
            [Store.OpSubscribe 3%nat; Store.OpDispatch INC;
             Store.OpUnsubscribe (Store.Unsub 3%nat); Store.OpSubscribe 5%nat]
            INC _).
  intros l. constructor.
Defined.

(** [never_subscribed_never_called] and [no_dispatch_no_call] on a new
    store of the counter. *)
Lemma never_subscribed_never_called_witness :
  Store.calls_to 7%nat
    (Store.run (Store.createStore None counter)
       [Store.OpSubscribe 3%nat; Store.OpDispatch INC;
        Store.OpUnsubscribe (Store.Unsub 3%nat); Store.OpDispatch INC]).2
  = 0%nat.
Proof.
  refine (never_subscribed_never_called (Store.createStore None counter)
            [Store.OpSubscribe 3%nat; Store.OpDispatch INC;
             Store.OpUnsubscribe (Store.Unsub 3%nat); Store.OpDispatch INC]
            7%nat _ _).
  - apply not_elem_of_nil.
  - apply (bool_decide_unpack _). vm_compute. exact I.
Defined.

Lemma no_dispatch_no_call_witness :
  (Store.run (Store.createStore None counter : @Store.Store _ Empty_set nat)
     [Store.OpSubscribe 3%nat; Store.OpGetState;
      Store.OpUnsubscribe (Store.Unsub 3%nat)]).2
  = [].
Proof.
  refine (no_dispatch_no_call (Store.createStore None counter)
            [Store.OpSubscribe 3%nat; Store.OpGetState;
             Store.OpUnsubscribe (Store.Unsub 3%nat)] _).
  reflexivity.
Defined.

(** [createElement_builds_vnode_tree] and [render_createElement] on the
    last call of the scenario. *)
Lemma createElement_builds_vnode_tree_witness :
  let '(vNode, h') :=
    createElement (VStr "div") (VRef 0) [VStr "hello"; scenario_span.1]
      scenario_span.2 in
  VNodeTree h' vNode ∧ ∀ v, VNodeTree scenario_span.2 v → VNodeTree h' v.
Proof.
  refine (createElement_builds_vnode_tree "div" (VRef 0)
            [VStr "hello"; scenario_span.1] scenario_span.2 _ _ _).
  - vm_compute. lia.
  - apply (bool_decide_unpack _). vm_compute. exact I.
  - vm_compute. vnode_tree.
Defined.


(** [createElement_keeps_rendering]: the [span] of the scenario
    renders after the last call as it did before. *)
Lemma createElement_keeps_rendering_witness :
  let '(vNode, h') :=
    createElement (VStr "div") (VRef 0) [VStr "hello"; scenario_span.1]
      scenario_span.2 in
  renderElement_returns h' scenario_span.1
    (ElementNode (mkElement (VStr "span") [] [TextNode "world"])).
Proof.
  refine (createElement_keeps_rendering (VStr "div") (VRef 0)
            [VStr "hello"; scenario_span.1] scenario_span.2 scenario_span.1
            (ElementNode (mkElement (VStr "span") [] [TextNode "world"]))
            _ _ _).
  - vm_compute. lia.
  - vm_compute. vnode_tree.
  - exists 2%nat. intros fuel Hle.
    by apply (renderElement_more_fuel 2 fuel).
Defined.

(** [renderElement_children_not_array] on a node whose children are a
    string, on the host [strict]. *)
Lemma renderElement_children_not_array_witness :
  General.renderElement strict 1 text_children (VRef 0)
  = General.Throws General.JsTypeError
  ∧ ∀ container,
      General.render strict 1 text_children (VRef 0) container
      = (mkElement (tag container) (properties container) [],
         General.Throws General.JsTypeError).
Proof.
  refine (renderElement_children_not_array strict 0 text_children 0 1
            [("type", VStr "p"); ("props", VRef 1)]
            [("id", VStr "a"); ("children", VStr "text")]
            (document_createElement (VStr "p")) _ _ _ _ _ _ _).
  - reflexivity.
  - reflexivity.
  - reflexivity.
  - apply (bool_decide_unpack _). vm_compute. exact I.
  - reflexivity.
  - intros key _ _ el value. simpl.
    destruct (String.eqb key "innerHTML"); [destruct value|]; by eexists.
  - exact I.
Defined.


(** [renderElement_non_vnode] on an array. *)
Lemma renderElement_non_vnode_witness :
  renderElement 1 array_value (VRef 0)
  = Ok (ElementNode (mkElement VUndefined [] [])).
Proof.
  refine (renderElement_non_vnode 0 array_value (VRef 0) _).
  exists [VStr "li"]. reflexivity.
Defined.


(** [renderElement_terminates] on the scenario and the host [strict],
    and [createElement_backward] on the last call of the scenario. *)
Lemma renderElement_terminates_witness :
  ∃ result : General.Outcome Node,
    result ≠ General.Unfinished
    ∧ ∀ fuel : nat, (length scenario.2 < fuel)%nat →
        General.renderElement strict fuel scenario.2 scenario.1 = result.
Proof.
  refine (renderElement_terminates strict scenario.2 scenario.1 _ _).
  - vm_compute. backward_heap.
  - vm_compute. lia.
Defined.

Lemma createElement_backward_witness :
  let '(vNode, h') :=
    createElement (VStr "div") (VRef 0) [VStr "hello"; scenario_span.1]
      scenario_span.2 in
  backward h' ∧ valid h' vNode ∧ ∀ v, valid scenario_span.2 v → valid h' v.
Proof.
  refine (createElement_backward (VStr "div") (VRef 0)
            [VStr "hello"; scenario_span.1] scenario_span.2 _ _ _ _).
  - vm_compute. backward_heap.
  - exact I.
  - vm_compute. lia.
  - vm_compute. repeat constructor.
Defined.

End examples.
